(** * tune_control: the command-line front end of the tune library

    A shallow embedding of [src/systemcmds/tune_control/tune_control.cpp]
    and the properties of its three commands ([play], [libtest], [stop]).

    Conventions.
    - C integers are [Z]; every conversion the source writes as a cast is
      written here as a reduction modulo a power of two.
    - The effects of [tune_control_main] (usage text, log lines, uORB
      publications, sleeps, and the calls of [set_string], [set_control]
      and [get_next_tune]) are appended, in program order, to the [trace]
      of a [World] that is threaded through the code by a small state
      monad.  The two getters of the [Tunes] object,
      [get_default_tunes_size] and [get_maximum_update_interval], only
      read it and leave no effect.
    - The [Tunes] class, [strtol] and [px4_getopt] live outside this
      translation unit.  [Tunes] is an interface (a type class), [strtol]
      is a section variable, and the command line is given as the sequence
      of results [px4_getopt] hands back followed by the operands left at
      [argv[myoptind]]. *)

From Stdlib Require Import ZArith List String Ascii Bool Lia Permutation.
From Equations Require Import Equations.
Import ListNotations.

Local Open Scope string_scope.
Local Open Scope list_scope.
Local Open Scope Z_scope.

(** ** Machine integers *)

(** Conversion to an unsigned type of [bits] bits. *)
Definition wrap (bits z : Z) : Z := z mod 2 ^ bits.

Definition uint8_t : Z -> Z := wrap 8.
Definition uint16_t : Z -> Z := wrap 16.
Definition uint32_t : Z -> Z := wrap 32.

(** ** The uORB message *)

(** [#define MAX_NOTE_ITERATION 50] *)
Definition MAX_NOTE_ITERATION : Z := 50.

(** The [tune_control] topic, with the fields the command touches. *)
Record tune_control_s : Type := mk_tune_control {
  timestamp : Z;        (* uint64 *)
  tune_id : Z;          (* uint8  *)
  tune_override : bool;
  frequency : Z;        (* uint16 *)
  duration : Z;         (* uint32 *)
  silence : Z;          (* uint32 *)
  strength : Z          (* uint8  *)
}.

(** Modelled from the spec: the constant [tune_control_s::STRENGTH_NORMAL]
    is declared in the generated message header, which is not part of this
    translation unit; the specification, like the usage text of the
    command, gives the default strength as 40. *)
Definition STRENGTH_NORMAL : Z := 40.

(** [tune_control_s tune_control = {};] *)
Definition tune_control_zero : tune_control_s :=
  mk_tune_control 0 0 false 0 0 0 0.

Definition set_timestamp (v : Z) (m : tune_control_s) : tune_control_s :=
  mk_tune_control v (tune_id m) (tune_override m) (frequency m) (duration m)
                  (silence m) (strength m).
Definition set_tune_id (v : Z) (m : tune_control_s) : tune_control_s :=
  mk_tune_control (timestamp m) v (tune_override m) (frequency m) (duration m)
                  (silence m) (strength m).
Definition set_tune_override (v : bool) (m : tune_control_s) : tune_control_s :=
  mk_tune_control (timestamp m) (tune_id m) v (frequency m) (duration m)
                  (silence m) (strength m).
Definition set_frequency (v : Z) (m : tune_control_s) : tune_control_s :=
  mk_tune_control (timestamp m) (tune_id m) (tune_override m) v (duration m)
                  (silence m) (strength m).
Definition set_duration (v : Z) (m : tune_control_s) : tune_control_s :=
  mk_tune_control (timestamp m) (tune_id m) (tune_override m) (frequency m) v
                  (silence m) (strength m).
Definition set_silence (v : Z) (m : tune_control_s) : tune_control_s :=
  mk_tune_control (timestamp m) (tune_id m) (tune_override m) (frequency m)
                  (duration m) v (strength m).
Definition set_strength (v : Z) (m : tune_control_s) : tune_control_s :=
  mk_tune_control (timestamp m) (tune_id m) (tune_override m) (frequency m)
                  (duration m) (silence m) v.

(** ** The Tunes interface *)

(** What one call of [get_next_tune] writes through its four reference
    parameters ([unsigned], [unsigned], [unsigned], [uint8_t]). *)
Record next_tune : Type := mk_next_tune {
  nt_frequency : Z;
  nt_duration : Z;
  nt_silence : Z;
  nt_strength : Z
}.

(** The members of [class Tunes] that the command calls.  The object is a
    value of type [Tunes]; a member that changes it returns the new one. *)
Class TunesAPI (Tunes : Type) : Type := {
  Tunes_default : Tunes;                                  (* Tunes tunes; *)
  get_default_tunes_size : Tunes -> Z;
  get_maximum_update_interval : Tunes -> Z;
  set_string : string -> Z -> Tunes -> Tunes;
  set_control : tune_control_s -> Tunes -> Z * Tunes;
  get_next_tune : Tunes -> Z * next_tune * Tunes
}.

(** ** Effects *)

(** The handle [orb_advertise_queue] returns. *)
Inductive orb_advert_t : Type := tune_control_advert.

Inductive effect : Type :=
| Usage                                              (* usage() *)
| Info (fmt : string) (args : list Z)                (* PX4_INFO *)
| Warn (fmt : string)                                (* PX4_WARN *)
| CallSetString (s : string) (strength : Z)          (* tunes.set_string *)
| CallSetControl (m : tune_control_s)                (* tunes.set_control *)
| CallGetNextTune                                    (* tunes.get_next_tune *)
| OrbAdvertiseQueue (m : tune_control_s) (queue_size : Z)
| OrbPublish (h : orb_advert_t) (m : tune_control_s)
| Usleep (us : Z).

(** The state outside the function: the clock read by [hrt_absolute_time],
    the file-scope [tune_control_pub] (None is [nullptr]) and what has
    happened so far. *)
Record World : Type := mk_World {
  hrt_now : Z;
  tune_control_pub : option orb_advert_t;
  trace : list effect
}.

(** A computation that may read and change the world. *)
Definition M (A : Type) : Type := World -> A * World.

Definition ret {A : Type} (a : A) : M A := fun w => (a, w).

Definition bind {A B : Type} (m : M A) (k : A -> M B) : M B :=
  fun w => let (a, w') := m w in k a w'.

Declare Scope tune_scope.
Delimit Scope tune_scope with tune.
Notation "x <- m ;; k" := (bind m (fun x => k))
  (at level 100, m at next level, right associativity) : tune_scope.
Notation "m ;;; k" := (bind m (fun _ => k))
  (at level 100, right associativity) : tune_scope.
Local Open Scope tune_scope.

Definition emit (e : effect) : M unit :=
  fun w => (tt, mk_World (hrt_now w) (tune_control_pub w) (trace w ++ [e])).

Definition usage : M unit := emit Usage.
Definition PX4_INFO (fmt : string) (args : list Z) : M unit := emit (Info fmt args).
Definition PX4_WARN (fmt : string) : M unit := emit (Warn fmt).

Definition hrt_absolute_time : M Z := fun w => (hrt_now w, w).

(** [usleep]: the call is recorded and the clock moves on by the time asked
    for. *)
Definition usleep (us : Z) : M unit :=
  fun w => (tt, mk_World (hrt_now w + us) (tune_control_pub w)
                         (trace w ++ [Usleep us])).

(** [publish_tune_control]: stamps the message (it is passed by reference,
    so the stamped message is handed back) and either advertises the topic
    with a queue of 3, which also publishes the message, or publishes on
    the handle made by an earlier call. *)
Definition publish_tune_control (tune_control : tune_control_s) : M tune_control_s :=
  now <- hrt_absolute_time ;;
  let tune_control := set_timestamp now tune_control in
  fun w =>
    match tune_control_pub w with
    | None =>
        (tune_control,
         mk_World (hrt_now w) (Some tune_control_advert)
                  (trace w ++ [OrbAdvertiseQueue tune_control 3]))
    | Some h =>
        (tune_control,
         mk_World (hrt_now w) (Some h) (trace w ++ [OrbPublish h tune_control]))
    end.

(** ** The command *)

(** How many more rounds a loop whose counter stands at [exit_counter] can
    start before the counter has passed [MAX_NOTE_ITERATION]. *)
Definition rounds_left (exit_counter : Z) : nat :=
  Z.to_nat (MAX_NOTE_ITERATION + 1 - exit_counter).
Arguments rounds_left : simpl never.

Section TuneControl.

Context {Tunes : Type} {tunes_api : TunesAPI Tunes}.

(** [strtol(s, nullptr, 0)]: the [long] the C library reads from [s]. *)
Variable strtol : string -> Z.

(** The locals of [tune_control_main] that the option loop writes. *)
Record locals : Type := mk_locals {
  string_input : bool;
  tune_string : option string;          (* None is nullptr *)
  tune_control : tune_control_s
}.

Definition with_tune_control (f : tune_control_s -> tune_control_s)
  (l : locals) : locals :=
  mk_locals (string_input l) (tune_string l) (f (tune_control l)).

(** How a piece of the function body ends: it falls through to the next
    statement, or it executes [return code]. *)
Inductive flow (A : Type) : Type :=
| Continue (a : A)
| Return (code : Z).
Arguments Continue {A} a.
Arguments Return {A} code.

(** [tune_string[0] != 'M'], on a NUL-terminated string: the empty string
    has the terminator at index 0. *)
Definition first_char_is_M (s : string) : bool :=
  match s with
  | String c _ => Ascii.eqb c "M"
  | EmptyString => false
  end.

(** The body of the [switch (ch)] for one result of [px4_getopt]. *)
Definition option_case (tunes : Tunes) (ch : ascii) (myoptarg : string)
  (l : locals) : M (flow locals) :=
  if Ascii.eqb ch "f" then
    let value := uint16_t (strtol myoptarg) in
    if (value >? 0) && (value <? 22000) then
      ret (Continue (with_tune_control (set_frequency value) l))
    else
      usage ;;; ret (Return 1)
  else if Ascii.eqb ch "d" then
    ret (Continue (with_tune_control (set_duration (uint32_t (strtol myoptarg))) l))
  else if Ascii.eqb ch "t" then
    let value := uint8_t (strtol myoptarg) in
    if (value >? 0) && (value <? get_default_tunes_size tunes) then
      ret (Continue (with_tune_control (set_tune_id value) l))
    else
      usage ;;; ret (Return 1)
  else if Ascii.eqb ch "m" then
    let l := mk_locals true (Some myoptarg) (tune_control l) in
    if negb (first_char_is_M myoptarg) then
      usage ;;; ret (Return 1)
    else
      ret (Continue l)
  else if Ascii.eqb ch "s" then
    let value := uint8_t (strtol myoptarg) in
    if (value >? 0) && (value <? 100) then
      ret (Continue (with_tune_control (set_strength value) l))
    else
      ret (Continue (with_tune_control (set_strength STRENGTH_NORMAL) l))
  else
    usage ;;; ret (Return (-1)).

(** [while ((ch = px4_getopt(...)) != EOF) { switch (ch) ... }], over the
    results [px4_getopt] returns before [EOF]. *)
Fixpoint getopt_loop (tunes : Tunes) (opts : list (ascii * string))
  (l : locals) : M (flow locals) :=
  match opts with
  | [] => ret (Continue l)
  | (ch, myoptarg) :: opts' =>
      r <- option_case tunes ch myoptarg l ;;
      match r with
      | Continue l' => getopt_loop tunes opts' l'
      | Return code => ret (Return code)
      end
  end.

(** The statements of one round of the playback loop, from the
    assignments to the message up to [usleep]. *)
Definition play_round (n : next_tune) (tune_control : tune_control_s)
  : M tune_control_s :=
  let tune_control := set_tune_id 0 tune_control in
  let tune_control := set_frequency (uint16_t (nt_frequency n)) tune_control in
  let tune_control := set_duration (uint32_t (nt_duration n)) tune_control in
  let tune_control := set_silence (uint32_t (nt_silence n)) tune_control in
  let tune_control := set_strength (uint8_t (nt_strength n)) tune_control in
  tune_control <- publish_tune_control tune_control ;;
  usleep (uint32_t (nt_duration n + nt_silence n)) ;;;
  ret tune_control.

(** The playback loop of [play]:
    [while (tunes.get_next_tune(...) > 0) { ...; exit_counter++;
       if (exit_counter > MAX_NOTE_ITERATION) break; }].
    It ends because the distance of [exit_counter] to the bound shrinks
    in every round that is followed by another one. *)
#[derive(equations=no, eliminator=no)]
Equations? play_loop (exit_counter : Z) (tunes : Tunes)
  (tune_control : tune_control_s) (w : World) : World
  by wf (rounds_left exit_counter) lt :=
  play_loop exit_counter tunes tune_control w
    with get_next_tune tunes := {
    | (r, n, tunes') with Z_gt_dec r 0 := {
      | right _ := snd (emit CallGetNextTune w)
      | left _ with
          (_ <- emit CallGetNextTune ;; play_round n tune_control) w := {
        | (tune_control', w') with Z_gt_dec (exit_counter + 1) MAX_NOTE_ITERATION := {
          | left _ := w'
          | right Hle := play_loop (exit_counter + 1) tunes' tune_control' w' } } } }.
Proof. unfold rounds_left, MAX_NOTE_ITERATION in *. lia. Qed.

(** The loop of [libtest]: the same loop with a log line and a fixed
    sleep in place of the publication. *)
#[derive(equations=no, eliminator=no)]
Equations? libtest_loop (exit_counter : Z) (tunes : Tunes) (w : World) : World
  by wf (rounds_left exit_counter) lt :=
  libtest_loop exit_counter tunes w
    with get_next_tune tunes := {
    | (r, n, tunes') with Z_gt_dec r 0 := {
      | right _ := snd (emit CallGetNextTune w)
      | left _ with
          (emit CallGetNextTune ;;;
           PX4_INFO "frequency: %d, duration %d, silence %d, strength%d"
                    [nt_frequency n; nt_duration n; nt_silence n; nt_strength n] ;;;
           usleep 500000) w := {
        | (_, w') with Z_gt_dec (exit_counter + 1) MAX_NOTE_ITERATION := {
          | left _ := w'
          | right Hle := libtest_loop (exit_counter + 1) tunes' w' } } } }.
Proof. unfold rounds_left, MAX_NOTE_ITERATION in *. lia. Qed.

(** [EINVAL] of errno.h. *)
Definition EINVAL : Z := 22.

(** The command line as the function sees it: the results of the
    successive [px4_getopt] calls (option character and [myoptarg]; an
    option that [px4_getopt] does not know comes back as a character
    outside the five cases), and [argv[myoptind .. argc-1]] once
    [px4_getopt] has returned [EOF]. *)
Record command_line : Type := mk_command_line {
  options : list (ascii * string);
  operands : list string
}.

Definition locals_init : locals :=
  mk_locals false None
    (set_strength STRENGTH_NORMAL (set_tune_id 0 tune_control_zero)).

(** The string [tune_string] points to when [play] hands it to
    [set_string]; the pointer is not null there, because [string_input] is
    set together with it. *)
Definition melody_of (l : locals) : string :=
  match tune_string l with Some s => s | None => EmptyString end.

(** The part of [tune_control_main] after the option loop. *)
Definition run_command (tunes : Tunes) (l : locals) (operands : list string)
  : M Z :=
  match operands with
  | [] => usage ;;; ret 1                          (* myoptind >= argc *)
  | command :: _ =>
      let exit_counter := 0 in
      if String.eqb command "play" then
        if string_input l then
          PX4_INFO "Start playback..." [] ;;;
          emit (CallSetString (melody_of l) (strength (tune_control l))) ;;;
          let tunes := set_string (melody_of l) (strength (tune_control l)) tunes in
          (fun w => (tt, play_loop exit_counter tunes (tune_control l) w)) ;;;
          PX4_INFO "Playback finished." [] ;;;
          ret 0
        else
          let tune_control :=
            if tune_id (tune_control l) =? 0
            then set_tune_id 1 (tune_control l)
            else tune_control l in
          PX4_INFO "Publishing standard tune %d" [tune_id tune_control] ;;;
          publish_tune_control tune_control ;;;
          ret 0
      else if String.eqb command "libtest" then
        emit (CallSetControl (tune_control l)) ;;;
        let (r, tunes) := set_control (tune_control l) tunes in
        (if r =? - EINVAL then PX4_WARN "Tune ID not recognized." else ret tt) ;;;
        (fun w => (tt, libtest_loop exit_counter tunes w)) ;;;
        ret 0
      else if String.eqb command "stop" then
        PX4_INFO "Stopping playback..." [] ;;;
        let tune_control := set_tune_id 0 (tune_control l) in
        let tune_control := set_frequency 0 tune_control in
        let tune_control := set_duration 0 tune_control in
        let tune_control := set_silence 0 tune_control in
        let tune_control := set_tune_override true tune_control in
        publish_tune_control tune_control ;;;
        usleep (get_maximum_update_interval tunes) ;;;
        ret 0
      else
        usage ;;; ret 1
  end.

(** [int tune_control_main(int argc, char *argv[])] *)
Definition tune_control_main (cl : command_line) : M Z :=
  let tunes := Tunes_default in
  r <- getopt_loop tunes (options cl) locals_init ;;
  match r with
  | Return code => ret code
  | Continue l => run_command tunes l (operands cl)
  end.

End TuneControl.

Arguments Continue {A} a.
Arguments Return {A} code.

(** ** What a run shows to the outside *)

(** What the downstream consumer and the calling thread see of a run:
    the messages that reach the topic and the pauses between them. *)
Inductive sink_action : Type :=
| Published (m : tune_control_s)
| Slept (us : Z).

Definition sink_actions (e : effect) : list sink_action :=
  match e with
  | OrbAdvertiseQueue m _ => [Published m]
  | OrbPublish _ m => [Published m]
  | Usleep us => [Slept us]
  | _ => []
  end.

Definition sink_view (tr : list effect) : list sink_action :=
  flat_map sink_actions tr.

(** The messages among the actions. *)
Definition messages (acts : list sink_action) : list tune_control_s :=
  flat_map (fun a => match a with Published m => [m] | Slept _ => [] end) acts.

(** The messages published, oldest first. *)
Definition published (tr : list effect) : list tune_control_s :=
  messages (sink_view tr).

(** The world in which [usage()] has been called. *)
Definition after_usage (w : World) : World := snd (usage w).

(** The effect by which [publish_tune_control] hands [m] to the topic in
    world [w]. *)
Definition publication (w : World) (m : tune_control_s) : effect :=
  match tune_control_pub w with
  | None => OrbAdvertiseQueue m 3
  | Some h => OrbPublish h m
  end.

(** A message without its time stamp. *)
Definition unstamped (m : tune_control_s) : tune_control_s := set_timestamp 0 m.

Definition unstamped_action (a : sink_action) : sink_action :=
  match a with
  | Published m => Published (unstamped m)
  | Slept us => Slept us
  end.

(** What one round of playback shows: the message, then a pause. *)
Definition round_view (pause : tune_control_s -> Z) (m : tune_control_s)
  : list sink_action :=
  [Published m; Slept (pause m)].

(** The pause after a message as the sum of its two time fields, and as
    that sum in 32-bit unsigned arithmetic. *)
Definition exact_pause (m : tune_control_s) : Z := duration m + silence m.
Definition wrapped_pause (m : tune_control_s) : Z :=
  uint32_t (duration m + silence m).

(** The option characters the [switch] has a case for. *)
Definition known_option (c : ascii) : bool :=
  existsb (Ascii.eqb c) ["f"; "d"; "t"; "m"; "s"]%char.

(** The argument of the last option [ch] on the command line, if any. *)
Fixpoint last_option (ch : ascii) (opts : list (ascii * string)) : option string :=
  match opts with
  | [] => None
  | (c, arg) :: opts' =>
      match last_option ch opts' with
      | Some arg' => Some arg'
      | None => if Ascii.eqb c ch then Some arg else None
      end
  end.

(** No option [ch] on the command line. *)
Definition absent (ch : ascii) (opts : list (ascii * string)) : Prop :=
  forall arg, ~ In (ch, arg) opts.

(** The message [stop] publishes. *)
Definition stop_message (l : locals) (w : World) : tune_control_s :=
  mk_tune_control (hrt_now w) 0 true 0 0 0 (strength (tune_control l)).

(** The message [play] publishes when no melody string was given. *)
Definition single_message (l : locals) (w : World) : tune_control_s :=
  set_timestamp (hrt_now w)
    (if tune_id (tune_control l) =? 0
     then set_tune_id 1 (tune_control l) else tune_control l).

(** [paced pause acts]: the actions are publications, each followed by a
    sleep of [pause m] microseconds for the message [m] just published. *)
Fixpoint paced (pause : tune_control_s -> Z) (acts : list sink_action) : bool :=
  match acts with
  | [] => true
  | Published m :: Slept us :: acts' => (us =? pause m) && paced pause acts'
  | _ => false
  end.

(** [fits_usleep n]: the tone and the pause of the note are values of the
    [unsigned] variables they are returned in, and their sum, the argument
    of [usleep], does not pass 32 bits. *)
Definition fits_usleep (n : next_tune) : Prop :=
  0 <= nt_duration n /\ 0 <= nt_silence n /\
  nt_duration n + nt_silence n < 2 ^ 32.

(** The message the playback loop builds from a note, in a message whose
    override flag is [ov]. *)
Definition note_message (ov : bool) (n : next_tune) : tune_control_s :=
  mk_tune_control 0 0 ov (uint16_t (nt_frequency n)) (uint32_t (nt_duration n))
                  (uint32_t (nt_silence n)) (uint8_t (nt_strength n)).

Section Melody.

Context {Tunes : Type} {tunes_api : TunesAPI Tunes}.

(** The notes the first [k] calls of [get_next_tune] hand out, up to the
    first call that does not return a positive value. *)
Fixpoint take_notes (k : nat) (tunes : Tunes) : list next_tune :=
  match k with
  | O => []
  | S k' =>
      let '(r, n, tunes') := get_next_tune tunes in
      if r >? 0 then n :: take_notes k' tunes' else []
  end.

(** [yields tunes notes]: the melody loaded in [tunes] is the finite
    sequence [notes]; [get_next_tune] hands them out one by one with a
    positive result and then returns a value that is not positive. *)
Inductive yields : Tunes -> list next_tune -> Prop :=
| yields_end (tunes : Tunes) (r : Z) (n : next_tune) (tunes' : Tunes) :
    get_next_tune tunes = (r, n, tunes') -> r <= 0 -> yields tunes []
| yields_note (tunes : Tunes) (r : Z) (n : next_tune) (tunes' : Tunes)
    (notes : list next_tune) :
    get_next_tune tunes = (r, n, tunes') -> r > 0 -> yields tunes' notes ->
    yields tunes (n :: notes).

End Melody.

(** ** A scripted Tunes object and a decimal strtol, for running examples *)

(** A [Tunes] object that plays back a list of notes: [set_string] loads
    the notes [compile] gives for the string and the strength,
    [get_next_tune] returns 1 with the next note, and 0 once the list is
    empty. *)
Definition scripted (table_size interval : Z)
  (compile : string -> Z -> list next_tune) : TunesAPI (list next_tune) :=
  {| Tunes_default := [];
     get_default_tunes_size := fun _ => table_size;
     get_maximum_update_interval := fun _ => interval;
     set_string := fun s strength _ => compile s strength;
     set_control := fun _ tunes => (0, tunes);
     get_next_tune := fun tunes =>
       match tunes with
       | [] => (0, mk_next_tune 0 0 0 0, [])
       | n :: tunes' => (1, n, tunes')
       end |}.

(** One note for every character after the leading marker. *)
Definition note_per_char (s : string) (strength : Z) : list next_tune :=
  match s with
  | EmptyString => []
  | String _ body =>
      map (fun c => mk_next_tune (Z.of_N (N_of_ascii c)) 100000 12500 strength)
          (list_ascii_of_string body)
  end.

Fixpoint decimal_digits (s : string) (acc : Z) : Z :=
  match s with
  | EmptyString => acc
  | String c s' =>
      let d := Z.of_N (N_of_ascii c) - 48 in
      if (0 <=? d) && (d <=? 9) then decimal_digits s' (10 * acc + d) else acc
  end.

(** [strtol(s, nullptr, 0)] on decimal numerals: an optional minus sign and
    decimal digits (no leading zero, no white space, within [long]). *)
Definition strtol_decimal (s : string) : Z :=
  match s with
  | String "-" s' => - decimal_digits s' 0
  | _ => decimal_digits s 0
  end.

(** A world in which nothing has happened and the topic is not advertised. *)
Definition boot_world : World := mk_World 0 None [].

(** A melody of sixty notes, for the scripted object. *)
Definition sixty_notes : string :=
  ("M" ++ "cdefgabcdefgabcdefgabcdefgabcd" ++ "cdefgabcdefgabcdefgabcdefgabcd")%string.

(** The scripted object used in the examples: a table of 21 tunes, an
    update interval of 100 ms, one note per character. *)
Definition demo_tunes : TunesAPI (list next_tune) :=
  scripted 21 100000 note_per_char.

(** The command run with this object and the decimal [strtol]. *)
Definition demo_main : command_line -> M Z :=
  @tune_control_main (list next_tune) demo_tunes strtol_decimal.

(** ** Command lines, runs and further views *)

(** [accepted strtol opts]: the option loop takes in every option of
    [opts], whatever the locals and the world it starts from, and leaves
    the world as it was. *)
Definition accepted {Tunes : Type} {tunes_api : TunesAPI Tunes}
  (strtol : string -> Z) (opts : list (ascii * string)) : Prop :=
  forall (l : locals) (w : World),
  exists l', getopt_loop strtol Tunes_default opts l w = (Continue l', w).

(** The command words [tune_control_main] knows. *)
Definition command_word (s : string) : Prop :=
  s = "play" \/ s = "libtest" \/ s = "stop".

(** The command run once for each command line of a list, one run after
    the other in the same process: the world a run leaves, the static
    [tune_control_pub] included, is the world the next one starts in. *)
Fixpoint run_all {Tunes : Type} {tunes_api : TunesAPI Tunes}
  (strtol : string -> Z) (cls : list command_line) (w : World) : World :=
  match cls with
  | [] => w
  | cl :: cls' => run_all strtol cls' (snd (tune_control_main strtol cl w))
  end.

(** How often the topic is advertised. *)
Definition advertises (tr : list effect) : nat :=
  List.length
    (filter (fun e => match e with OrbAdvertiseQueue _ _ => true | _ => false end)
       tr).

(** The queue sizes asked for when advertising. *)
Definition queue_sizes (tr : list effect) : list Z :=
  flat_map (fun e => match e with OrbAdvertiseQueue _ q => [q] | _ => [] end) tr.

(** How often [get_next_tune] is called. *)
Definition get_next_tune_calls (tr : list effect) : nat :=
  List.length
    (filter (fun e => match e with CallGetNextTune => true | _ => false end) tr).

(** The arguments of the calls of [set_string]. *)
Definition set_string_calls (tr : list effect) : list (string * Z) :=
  flat_map (fun e => match e with CallSetString s v => [(s, v)] | _ => [] end) tr.

(** The lines logged with [PX4_INFO] and [PX4_WARN]. *)
Definition log_view (tr : list effect) : list effect :=
  filter (fun e => match e with Info _ _ | Warn _ => true | _ => false end) tr.

(** The value an option leaves in a field: [value arg] for the argument of
    the last option [ch], [default] when there is none. *)
Definition option_value {A : Type} (ch : ascii) (value : string -> A)
  (default : A) (opts : list (ascii * string)) : A :=
  match last_option ch opts with
  | Some arg => value arg
  | None => default
  end.

(** The strength [-s arg] selects. *)
Definition strength_of (strtol : string -> Z) (arg : string) : Z :=
  let value := uint8_t (strtol arg) in
  if (value >? 0) && (value <? 100) then value else STRENGTH_NORMAL.

(** The line [libtest] logs for a note. *)
Definition libtest_line (n : next_tune) : effect :=
  Info "frequency: %d, duration %d, silence %d, strength%d"
       [nt_frequency n; nt_duration n; nt_silence n; nt_strength n].

(** An endless melody for the scripted object: [get_next_tune] returns 1
    with the same note for ever. *)
Definition endless_tunes : TunesAPI unit :=
  {| Tunes_default := tt;
     get_default_tunes_size := fun _ => 21;
     get_maximum_update_interval := fun _ => 100000;
     set_string := fun _ _ _ => tt;
     set_control := fun _ _ => (-22, tt);
     get_next_tune := fun _ => (1, mk_next_tune 440 100000 12500 40, tt) |}.

(** The effects that hand a message to the topic. *)
Definition publications (tr : list effect) : list effect :=
  filter (fun e => match e with
                   | OrbAdvertiseQueue _ _ | OrbPublish _ _ => true
                   | _ => false
                   end) tr.

(** The handle after the messages [msgs] have been published, starting
    with the handle [pub]. *)
Definition handle_after (pub : option orb_advert_t) (msgs : list tune_control_s)
  : option orb_advert_t :=
  match msgs with
  | [] => pub
  | _ :: _ => Some match pub with Some h => h | None => tune_control_advert end
  end.

(** How the messages [msgs] reach the topic, starting with the handle
    [pub]: the first one advertises the topic with a queue of 3 when there
    is no handle yet, all the others are published on the handle. *)
Fixpoint publications_of (pub : option orb_advert_t) (msgs : list tune_control_s)
  : list effect :=
  match msgs with
  | [] => []
  | m :: msgs' =>
      match pub with
      | None => OrbAdvertiseQueue m 3
      | Some h => OrbPublish h m
      end :: publications_of (handle_after pub [m]) msgs'
  end.

(** [handle_rule pub new pub']: the effects [new], which start with the
    handle [pub], publish their messages as [publications_of] says and
    leave the handle [pub']. *)
Definition handle_rule (pub : option orb_advert_t) (new : list effect)
  (pub' : option orb_advert_t) : Prop :=
  publications new = publications_of pub (published new) /\
  pub' = handle_after pub (published new).

(** [grows w w']: the world [w'] is [w] after some more effects, which
    keep the handle rule. *)
Definition grows (w w' : World) : Prop :=
  exists new, trace w' = trace w ++ new /\
              handle_rule (tune_control_pub w) new (tune_control_pub w').

(** The effects the playback loop can have. *)
Definition loop_effect (e : effect) : bool :=
  match e with
  | CallGetNextTune | OrbAdvertiseQueue _ _ | OrbPublish _ _ | Usleep _ => true
  | _ => false
  end.

(** What one round of the [libtest] loop does. *)
Definition libtest_round (n : next_tune) : list effect :=
  [CallGetNextTune; libtest_line n; Usleep 500000].

(** The call of [get_next_tune] that ends a loop: it is made when the
    melody runs out before the counter has passed the bound. *)
Definition last_call (rounds notes : nat) : list effect :=
  if (notes <? rounds)%nat then [CallGetNextTune] else [].

(** [lawful m]: whatever world the computation [m] starts in, the world it
    leaves has grown from it. *)
Definition lawful {A : Type} (m : M A) : Prop :=
  forall w, grows w (snd (m w)).

(** The monad operations to unfold when running a piece of the command. *)
Ltac run_monad :=
  unfold bind, ret, usage, PX4_INFO, PX4_WARN, emit, usleep,
    publish_tune_control, hrt_absolute_time; cbn [fst snd].

(** * Properties *)

(** ** Machine integers *)

Lemma wrap_range (bits z : Z) : 0 <= bits -> 0 <= wrap bits z < 2 ^ bits.
Proof.
  intros Hb. unfold wrap. apply Z.mod_pos_bound. apply Z.pow_pos_nonneg; lia.
Qed.

Lemma wrap_small (bits z : Z) : 0 <= z < 2 ^ bits -> wrap bits z = z.
Proof. intros Hz. unfold wrap. apply Z.mod_small. exact Hz. Qed.

Lemma wrap_add_wrap (bits a b : Z) :
  wrap bits (wrap bits a + wrap bits b) = wrap bits (a + b).
Proof. unfold wrap. symmetry. apply Zplus_mod. Qed.

Lemma uint16_t_mod (z : Z) : uint16_t z = z mod 65536.
Proof. reflexivity. Qed.

Lemma uint8_t_mod (z : Z) : uint8_t z = z mod 256.
Proof. reflexivity. Qed.

(** A range test of the source, [value > 0 && value < bound]. *)
Lemma range_test_true (value bound : Z) :
  (value >? 0) && (value <? bound) = true <-> 0 < value < bound.
Proof.
  rewrite andb_true_iff, Z.gtb_ltb, !Z.ltb_lt. tauto.
Qed.

Lemma range_test_false (value bound : Z) :
  (value >? 0) && (value <? bound) = false <-> ~ 0 < value < bound.
Proof.
  rewrite <- range_test_true. destruct ((value >? 0) && (value <? bound)).
  - split; [discriminate | intros H; exfalso; apply H; reflexivity].
  - split; [discriminate | reflexivity].
Qed.

(** ** The option loop *)

Section OptionLoop.

Context {Tunes : Type} {tunes_api : TunesAPI Tunes}.
Variable strtol : string -> Z.

(** One option either is taken in, leaving the world alone, or ends the
    command with the usage text and a non-zero exit status. *)
Lemma option_case_cases (tunes : Tunes) (ch : ascii) (arg : string)
  (l : locals) (w : World) :
  (exists l', option_case strtol tunes ch arg l w = (Continue l', w)) \/
  (exists code, option_case strtol tunes ch arg l w = (Return code, after_usage w)
                /\ (code = 1 \/ code = -1)).
Proof.
  unfold option_case, after_usage.
  repeat match goal with
         | |- context [if ?b then _ else _] => destruct b
         end; run_monad; eauto.
Qed.

(** Whether an option ends the command does not depend on the options
    seen before it. *)
Lemma option_case_return_any (tunes : Tunes) (ch : ascii) (arg : string)
  (l : locals) (w w1 : World) (code : Z) :
  option_case strtol tunes ch arg l w = (Return code, w1) ->
  forall l' w', option_case strtol tunes ch arg l' w' = (Return code, after_usage w').
Proof.
  unfold option_case, after_usage.
  repeat match goal with
         | |- context [if ?b then _ else _] => destruct b
         end; run_monad; intros H; try discriminate H;
    inversion H; subst; reflexivity.
Qed.

Lemma getopt_loop_cases (tunes : Tunes) (opts : list (ascii * string)) :
  forall (l : locals) (w : World),
    (exists l', getopt_loop strtol tunes opts l w = (Continue l', w)) \/
    (exists code, getopt_loop strtol tunes opts l w = (Return code, after_usage w)
                  /\ (code = 1 \/ code = -1)).
Proof.
  induction opts as [|[ch arg] opts IH]; intros l w; cbn [getopt_loop].
  - left. exists l. reflexivity.
  - unfold bind.
    destruct (option_case_cases tunes ch arg l w) as [[l' E]|[code [E Hc]]];
      rewrite E.
    + apply IH.
    + right. exists code. split; [reflexivity | exact Hc].
Qed.

Lemma getopt_loop_continue_world (tunes : Tunes) (opts : list (ascii * string))
  (l l' : locals) (w w' : World) :
  getopt_loop strtol tunes opts l w = (Continue l', w') -> w' = w.
Proof.
  intros H.
  destruct (getopt_loop_cases tunes opts l w) as [[l1 E]|[code [E _]]];
    rewrite E in H; [inversion H; reflexivity | discriminate H].
Qed.

(** An option that ends the command does so wherever it stands among the
    options: the loop returns at it or at an earlier one. *)
Lemma getopt_loop_rejects (tunes : Tunes) (opts : list (ascii * string))
  (ch : ascii) (arg : string) (l0 : locals) (w0 w1 : World) (code0 : Z) :
  In (ch, arg) opts ->
  option_case strtol tunes ch arg l0 w0 = (Return code0, w1) ->
  forall (l : locals) (w : World),
  exists code, getopt_loop strtol tunes opts l w = (Return code, after_usage w)
               /\ (code = 1 \/ code = -1).
Proof.
  intros Hin Hrej l w.
  destruct (getopt_loop_cases tunes opts l w) as [[l' E]|Hret];
    [exfalso | exact Hret].
  revert l w E. induction opts as [|[c a] opts IH]; intros l w E.
  - destruct Hin.
  - cbn [getopt_loop] in E. unfold bind in E.
    destruct (option_case_cases tunes c a l w) as [[l1 E1]|[code [E1 _]]];
      rewrite E1 in E; [| discriminate E].
    destruct Hin as [Heq|Hin].
    + inversion Heq; subst c a.
      rewrite (option_case_return_any tunes ch arg l0 w0 w1 code0 Hrej l w) in E1.
      discriminate E1.
    + exact (IH Hin l1 w E).
Qed.

End OptionLoop.

(** ** The playback loop *)

Section PlayLoop.

Context {Tunes : Type} {tunes_api : TunesAPI Tunes}.

Lemma play_loop_unfold_if (exit_counter : Z) (tunes : Tunes)
  (tune_control : tune_control_s) (w : World) :
  play_loop exit_counter tunes tune_control w =
  let '(r, n, tunes') := get_next_tune tunes in
  if r >? 0 then
    let '(tune_control', w') :=
      (emit CallGetNextTune ;;; play_round n tune_control)%tune w in
    if exit_counter + 1 >? MAX_NOTE_ITERATION then w'
    else play_loop (exit_counter + 1) tunes' tune_control' w'
  else snd (emit CallGetNextTune w).
Proof.
  unfold play_loop at 1. rewrite FixWf_unfold.
  - cbn [pr1 pr2]. unfold play_loop_functional, play_loop_clause_1.
    destruct (get_next_tune tunes) as [[r n] tunes'].
    unfold play_loop_clause_1_clause_1.
    destruct (Z_gt_dec r 0) as [Hr|Hr].
    + assert (Er : (r >? 0) = true) by (apply Z.gtb_lt; lia). rewrite Er.
      unfold play_loop_clause_1_clause_1_clause_2.
      destruct ((emit CallGetNextTune ;;; play_round n tune_control)%tune w) as [tc' w'].
      unfold play_loop_clause_1_clause_1_clause_2_clause_1.
      destruct (Z_gt_dec (exit_counter + 1) MAX_NOTE_ITERATION) as [Hc|Hc].
      * assert (Ec : (exit_counter + 1 >? MAX_NOTE_ITERATION) = true)
          by (apply Z.gtb_lt; lia).
        rewrite Ec. reflexivity.
      * assert (Ec : (exit_counter + 1 >? MAX_NOTE_ITERATION) = false).
        { rewrite Z.gtb_ltb. apply Z.ltb_ge. lia. }
        rewrite Ec. reflexivity.
    + assert (Er : (r >? 0) = false).
      { rewrite Z.gtb_ltb. apply Z.ltb_ge. lia. }
      rewrite Er. reflexivity.
  - intros [ec [t [tc w0]]] f g Hfg. cbn [pr1 pr2].
    unfold play_loop_functional, play_loop_clause_1.
    destruct (get_next_tune t) as [[r n] t'].
    unfold play_loop_clause_1_clause_1.
    destruct (Z_gt_dec r 0) as [Hr|Hr]; [| reflexivity].
    unfold play_loop_clause_1_clause_1_clause_2.
    destruct ((emit CallGetNextTune ;;; play_round n tc)%tune w0) as [tc' w'].
    unfold play_loop_clause_1_clause_1_clause_2_clause_1.
    destruct (Z_gt_dec (ec + 1) MAX_NOTE_ITERATION) as [Hc|Hc]; [reflexivity|].
    apply Hfg.
Qed.

Lemma sink_view_app (tr1 tr2 : list effect) :
  sink_view (tr1 ++ tr2) = sink_view tr1 ++ sink_view tr2.
Proof. apply flat_map_app. Qed.

Lemma publish_tune_control_eq (m : tune_control_s) (w : World) :
  publish_tune_control m w =
  (set_timestamp (hrt_now w) m,
   mk_World (hrt_now w)
     (Some match tune_control_pub w with Some h => h | None => tune_control_advert end)
     (trace w ++ [publication w (set_timestamp (hrt_now w) m)])).
Proof.
  unfold publish_tune_control, publication, bind, hrt_absolute_time.
  destruct (tune_control_pub w); reflexivity.
Qed.

(** One round: what it appends to the trace. *)
Lemma play_round_trace (n : next_tune) (tune_control : tune_control_s) (w : World) :
  exists (tc' : tune_control_s) (w' : World) (new : list effect),
    (emit CallGetNextTune ;;; play_round n tune_control)%tune w = (tc', w') /\
    tune_override tc' = tune_override tune_control /\
    trace w' = trace w ++ new /\
    map unstamped_action (sink_view new) =
      round_view wrapped_pause (note_message (tune_override tune_control) n).
Proof.
  unfold play_round, bind. unfold emit at 1. rewrite publish_tune_control_eq.
  unfold usleep, ret. cbn [hrt_now tune_control_pub trace].
  eexists _, _, _. split; [reflexivity|].
  split; [reflexivity|].
  cbn [trace]. split.
  - rewrite <- !app_assoc. reflexivity.
  - unfold publication. cbn [tune_control_pub].
    destruct (tune_control_pub w); cbn;
      unfold round_view, wrapped_pause, note_message, unstamped; cbn;
      fold uint32_t; unfold uint32_t; rewrite wrap_add_wrap; reflexivity.
Qed.

Lemma play_loop_trace (k : nat) :
  forall (exit_counter : Z), rounds_left exit_counter = S k ->
  forall (tunes : Tunes) (tune_control : tune_control_s) (w : World),
  exists new : list effect,
    trace (play_loop exit_counter tunes tune_control w) = trace w ++ new /\
    map unstamped_action (sink_view new) =
      flat_map (fun n => round_view wrapped_pause
                           (note_message (tune_override tune_control) n))
               (take_notes (S k) tunes).
Proof.
  induction k as [|k IH]; intros ec Hec tunes tc w;
    rewrite play_loop_unfold_if; cbn [take_notes];
    destruct (get_next_tune tunes) as [[r n] tunes'];
    destruct (r >? 0).
  - destruct (play_round_trace n tc w) as (tc' & w' & new & E & Hov & Htr & Hview).
    rewrite E.
    assert (Ec : (ec + 1 >? MAX_NOTE_ITERATION) = true).
    { apply Z.gtb_lt. unfold rounds_left, MAX_NOTE_ITERATION in *. lia. }
    rewrite Ec. exists new. split; [exact Htr|].
    cbn [flat_map]. rewrite app_nil_r. exact Hview.
  - exists [CallGetNextTune]. split; reflexivity.
  - destruct (play_round_trace n tc w) as (tc' & w' & new & E & Hov & Htr & Hview).
    rewrite E.
    assert (Ec : (ec + 1 >? MAX_NOTE_ITERATION) = false).
    { rewrite Z.gtb_ltb. apply Z.ltb_ge. unfold rounds_left, MAX_NOTE_ITERATION in *. lia. }
    rewrite Ec.
    assert (Hec' : rounds_left (ec + 1) = S k).
    { unfold rounds_left, MAX_NOTE_ITERATION in *. lia. }
    destruct (IH (ec + 1) Hec' tunes' tc' w') as (new' & Htr' & Hview').
    exists (new ++ new'). split.
    + rewrite Htr', Htr, app_assoc. reflexivity.
    + rewrite sink_view_app, map_app, Hview, Hview', Hov.
      change (flat_map ?f (n :: ?l)) with (f n ++ flat_map f l).
      reflexivity.
  - exists [CallGetNextTune]. split; reflexivity.
Qed.
End PlayLoop.

(** ** What the option loop leaves in the locals *)

Section Frame.

Context {Tunes : Type} {tunes_api : TunesAPI Tunes}.
Variable strtol : string -> Z.

Ltac split_option_case H :=
  unfold option_case in H;
  repeat match type of H with
         | context [if ?b then _ else _] => destruct b eqn:?
         end;
  run_monad; unfold bind, ret, usage, emit in H;
  try discriminate H; inversion H; subst; clear H.

(** What one accepted option leaves untouched. *)
Lemma option_case_frame (tunes : Tunes) (ch : ascii) (arg : string)
  (l l' : locals) (w w' : World) :
  option_case strtol tunes ch arg l w = (Continue l', w') ->
  tune_override (tune_control l') = tune_override (tune_control l) /\
  silence (tune_control l') = silence (tune_control l) /\
  (Ascii.eqb ch "m" = false ->
   string_input l' = string_input l /\ tune_string l' = tune_string l) /\
  (Ascii.eqb ch "t" = false ->
   tune_id (tune_control l') = tune_id (tune_control l)) /\
  (Ascii.eqb ch "s" = false ->
   strength (tune_control l') = strength (tune_control l)).
Proof.
  intros H. split_option_case H; cbn;
    repeat split; intros; try reflexivity; congruence.
Qed.

(** A projection of the locals that no option of the command line
    writes is the same after the loop. *)
Lemma getopt_loop_preserves {A : Type} (proj : locals -> A)
  (writes : ascii -> bool) (tunes : Tunes) :
  (forall ch arg l l' w w',
      writes ch = false ->
      option_case strtol tunes ch arg l w = (Continue l', w') ->
      proj l' = proj l) ->
  forall opts : list (ascii * string),
    (forall c a, In (c, a) opts -> writes c = false) ->
    forall l l' w w',
      getopt_loop strtol tunes opts l w = (Continue l', w') ->
      proj l' = proj l.
Proof.
  intros Hstep opts. induction opts as [|[c a] opts IH]; intros Hopts l l' w w' H.
  - cbn in H. unfold ret in H. inversion H. reflexivity.
  - cbn [getopt_loop] in H. unfold bind in H.
    destruct (option_case strtol tunes c a l w) as [[l1|code] w1] eqn:E.
    + rewrite (IH (fun c' a' Hin => Hopts c' a' (or_intror Hin)) l1 l' w1 w' H).
      apply (Hstep c a l l1 w w1); [| exact E].
      apply (Hopts c a). left. reflexivity.
    + unfold ret in H. discriminate H.
Qed.

Lemma getopt_loop_tune_override (tunes : Tunes) (opts : list (ascii * string))
  (l l' : locals) (w w' : World) :
  getopt_loop strtol tunes opts l w = (Continue l', w') ->
  tune_override (tune_control l') = tune_override (tune_control l).
Proof.
  apply (getopt_loop_preserves (fun l => tune_override (tune_control l))
           (fun _ => false)).
  - intros ch arg l0 l1 w0 w1 _ H. apply (option_case_frame _ _ _ _ _ _ _ H).
  - reflexivity.
Qed.

Lemma absent_eqb (ch : ascii) (opts : list (ascii * string)) :
  absent ch opts -> forall c a, In (c, a) opts -> Ascii.eqb c ch = false.
Proof.
  intros Habs c a Hin. destruct (Ascii.eqb_spec c ch) as [->|]; [| reflexivity].
  exfalso. exact (Habs a Hin).
Qed.

Lemma getopt_loop_no_m (tunes : Tunes) (opts : list (ascii * string))
  (l l' : locals) (w w' : World) :
  absent "m" opts ->
  getopt_loop strtol tunes opts l w = (Continue l', w') ->
  string_input l' = string_input l.
Proof.
  intros Habs.
  apply (getopt_loop_preserves string_input (fun c => Ascii.eqb c "m")).
  - intros ch arg l0 l1 w0 w1 Hch H.
    apply (option_case_frame _ _ _ _ _ _ _ H). exact Hch.
  - apply absent_eqb. exact Habs.
Qed.

Lemma getopt_loop_no_t (tunes : Tunes) (opts : list (ascii * string))
  (l l' : locals) (w w' : World) :
  absent "t" opts ->
  getopt_loop strtol tunes opts l w = (Continue l', w') ->
  tune_id (tune_control l') = tune_id (tune_control l).
Proof.
  intros Habs.
  apply (getopt_loop_preserves (fun l => tune_id (tune_control l))
           (fun c => Ascii.eqb c "t")).
  - intros ch arg l0 l1 w0 w1 Hch H.
    apply (option_case_frame _ _ _ _ _ _ _ H). exact Hch.
  - apply absent_eqb. exact Habs.
Qed.

Lemma getopt_loop_no_s (tunes : Tunes) (opts : list (ascii * string))
  (l l' : locals) (w w' : World) :
  absent "s" opts ->
  getopt_loop strtol tunes opts l w = (Continue l', w') ->
  strength (tune_control l') = strength (tune_control l).
Proof.
  intros Habs.
  apply (getopt_loop_preserves (fun l => strength (tune_control l))
           (fun c => Ascii.eqb c "s")).
  - intros ch arg l0 l1 w0 w1 Hch H.
    apply (option_case_frame _ _ _ _ _ _ _ H). exact Hch.
  - apply absent_eqb. exact Habs.
Qed.

Lemma last_option_none (ch : ascii) (opts : list (ascii * string)) :
  last_option ch opts = None -> absent ch opts.
Proof.
  induction opts as [|[c a] opts IH]; intros H arg Hin; [destruct Hin|].
  cbn in H. destruct (last_option ch opts); [discriminate H|].
  destruct (Ascii.eqb_spec c ch) as [->|Hne]; [discriminate H|].
  destruct Hin as [Heq|Hin]; [inversion Heq; congruence|].
  exact (IH eq_refl arg Hin).
Qed.

(** After the loop the message carries the index of the last [-t] option,
    and that index has passed the range test. *)
Lemma getopt_loop_last_t (tunes : Tunes) (opts : list (ascii * string)) :
  forall (l l' : locals) (w w' : World) (arg : string),
    getopt_loop strtol tunes opts l w = (Continue l', w') ->
    last_option "t" opts = Some arg ->
    tune_id (tune_control l') = uint8_t (strtol arg) /\
    0 < uint8_t (strtol arg) < get_default_tunes_size tunes.
Proof.
  induction opts as [|[c a] opts IH]; intros l l' w w' arg H Hlast;
    [discriminate Hlast|].
  cbn [getopt_loop] in H. unfold bind in H.
  destruct (option_case strtol tunes c a l w) as [[l1|code] w1] eqn:E;
    [| unfold ret in H; discriminate H].
  cbn [last_option] in Hlast.
  destruct (last_option "t" opts) as [arg'|] eqn:El.
  - inversion Hlast; subst arg'. exact (IH l1 l' w1 w' arg H eq_refl).
  - destruct (Ascii.eqb_spec c "t") as [->|Hne]; [| discriminate Hlast].
    inversion Hlast; subst a.
    rewrite (getopt_loop_no_t tunes opts l1 l' w1 w' (last_option_none _ _ El) H).
    unfold option_case in E. cbn [Ascii.eqb Bool.eqb] in E.
    destruct ((uint8_t (strtol arg) >? 0)
              && (uint8_t (strtol arg) <? get_default_tunes_size tunes)) eqn:Er.
    + unfold ret in E. inversion E; subst. cbn.
      split; [reflexivity | apply range_test_true; exact Er].
    + unfold bind, usage, emit, ret in E. discriminate E.
Qed.

End Frame.

(** ** Views of a trace *)

Lemma sink_view_snoc (tr : list effect) (e : effect) :
  sink_view (tr ++ [e]) = sink_view tr ++ sink_actions e.
Proof. rewrite sink_view_app. cbn. rewrite app_nil_r. reflexivity. Qed.

Lemma messages_unstamped (acts : list sink_action) :
  messages (map unstamped_action acts) = map unstamped (messages acts).
Proof.
  induction acts as [|[m|us] acts IH]; cbn; [reflexivity | | exact IH].
  f_equal. exact IH.
Qed.

Lemma messages_rounds {A : Type} (pause : tune_control_s -> Z)
  (f : A -> tune_control_s) (xs : list A) :
  messages (flat_map (fun x => round_view pause (f x)) xs) = map f xs.
Proof.
  induction xs as [|x xs IH]; cbn; [reflexivity|]. f_equal. exact IH.
Qed.

Lemma paced_rounds {A : Type} (pause : tune_control_s -> Z)
  (f : A -> tune_control_s) (xs : list A) :
  paced pause (flat_map (fun x => round_view pause (f x)) xs) = true.
Proof.
  induction xs as [|x xs IH]; cbn; [reflexivity|].
  rewrite Z.eqb_refl. exact IH.
Qed.

Lemma paced_unstamped (pause : tune_control_s -> Z) :
  (forall m, pause (unstamped m) = pause m) ->
  forall acts, paced pause (map unstamped_action acts) = paced pause acts.
Proof.
  intros Hp. fix IH 1. intros [|[m|us] [|[m'|us'] acts]]; cbn; try reflexivity.
  rewrite Hp. f_equal. apply IH.
Qed.

Lemma wrapped_pause_unstamped (m : tune_control_s) :
  wrapped_pause (unstamped m) = wrapped_pause m.
Proof. reflexivity. Qed.

Section Sequences.
Context {Tunes : Type} {tunes_api : TunesAPI Tunes}.

(** On a finite melody the first [k] notes handed out are the first [k]
    notes of the melody. *)
Lemma take_notes_yields (tunes : Tunes) (notes : list next_tune) :
  yields tunes notes -> forall k, take_notes k tunes = firstn k notes.
Proof.
  induction 1 as [tunes r n tunes' E Hr | tunes r n tunes' notes E Hr _ IH];
    intros [|k]; cbn [take_notes firstn]; try reflexivity; rewrite E.
  - assert (Er : (r >? 0) = false) by (rewrite Z.gtb_ltb; apply Z.ltb_ge; lia).
    rewrite Er. reflexivity.
  - assert (Er : (r >? 0) = true) by (apply Z.gtb_lt; lia).
    rewrite Er, IH. reflexivity.
Qed.
End Sequences.

(** ** The three commands *)

Section Commands.

Context {Tunes : Type} {tunes_api : TunesAPI Tunes}.
Variable strtol : string -> Z.

(** When the option loop takes in every option, the command is what the
    part after the loop does in the same world. *)
Lemma tune_control_main_accepted (cl : command_line) (l : locals) (w w1 : World) :
  getopt_loop strtol Tunes_default (options cl) locals_init w = (Continue l, w1) ->
  tune_control_main strtol cl w = run_command Tunes_default l (operands cl) w.
Proof.
  intros H. unfold tune_control_main, bind.
  rewrite H, (getopt_loop_continue_world strtol _ _ _ _ _ _ H). reflexivity.
Qed.

(** When an option is refused, the command prints the usage text and
    returns a non-zero status; nothing else happens. *)
Lemma tune_control_main_rejected (cl : command_line) (ch : ascii) (arg : string)
  (l0 : locals) (w0 w1 : World) (code0 : Z) (w : World) :
  In (ch, arg) (options cl) ->
  option_case strtol Tunes_default ch arg l0 w0 = (Return code0, w1) ->
  exists code, tune_control_main strtol cl w = (code, after_usage w)
               /\ (code = 1 \/ code = -1).
Proof.
  intros Hin Hrej.
  destruct (getopt_loop_rejects strtol Tunes_default (options cl) ch arg
              l0 w0 w1 code0 Hin Hrej locals_init w) as [code [E Hc]].
  exists code. split; [| exact Hc].
  unfold tune_control_main, bind. rewrite E. reflexivity.
Qed.

Lemma after_usage_trace (w : World) : trace (after_usage w) = trace w ++ [Usage].
Proof. reflexivity. Qed.

Lemma after_usage_published (w : World) :
  published (trace (after_usage w)) = published (trace w).
Proof.
  rewrite after_usage_trace. unfold published.
  rewrite sink_view_snoc. cbn. rewrite app_nil_r. reflexivity.
Qed.

Lemma run_command_stop (tunes : Tunes) (l : locals) (rest : list string) (w : World) :
  exists w',
    run_command tunes l ("stop" :: rest) w = (0, w') /\
    trace w' = trace w ++ [Info "Stopping playback..." [];
                           publication w (stop_message l w);
                           Usleep (get_maximum_update_interval tunes)].
Proof.
  unfold run_command. cbn [String.eqb Ascii.eqb Bool.eqb andb].
  unfold bind, PX4_INFO. unfold emit at 1. rewrite publish_tune_control_eq.
  unfold usleep, ret. cbn [hrt_now tune_control_pub trace].
  eexists. split; [reflexivity|]. cbn [trace].
  rewrite <- !app_assoc. reflexivity.
Qed.

Lemma run_command_play_single (tunes : Tunes) (l : locals) (rest : list string)
  (w : World) :
  string_input l = false ->
  exists w',
    run_command tunes l ("play" :: rest) w = (0, w') /\
    trace w' = trace w ++ [Info "Publishing standard tune %d"
                                [tune_id (single_message l w)];
                           publication w (single_message l w)].
Proof.
  intros Hs. unfold run_command. cbn [String.eqb Ascii.eqb Bool.eqb andb].
  rewrite Hs. unfold bind, PX4_INFO. unfold emit at 1.
  rewrite publish_tune_control_eq. unfold ret.
  cbn [hrt_now tune_control_pub trace].
  eexists. split; [reflexivity|]. cbn [trace].
  rewrite <- !app_assoc. reflexivity.
Qed.

Lemma run_command_play_string (tunes : Tunes) (l : locals) (rest : list string)
  (w : World) :
  string_input l = true ->
  exists (w' : World) (new : list effect),
    run_command tunes l ("play" :: rest) w = (0, w') /\
    trace w' = trace w ++ new /\
    map unstamped_action (sink_view new) =
      flat_map (fun n => round_view wrapped_pause
                           (note_message (tune_override (tune_control l)) n))
        (take_notes (S (Z.to_nat MAX_NOTE_ITERATION))
           (set_string (melody_of l) (strength (tune_control l)) tunes)).
Proof.
  intros Hs. unfold run_command. cbn [String.eqb Ascii.eqb Bool.eqb andb].
  rewrite Hs. unfold bind, PX4_INFO, emit, ret. cbn [hrt_now tune_control_pub trace].
  match goal with
  | |- context [play_loop 0 ?t ?tc ?w0] =>
      destruct (play_loop_trace (Z.to_nat MAX_NOTE_ITERATION) 0 eq_refl t tc w0)
        as (new & Htr & Hview);
      destruct (play_loop 0 t tc w0) as [now pub tr] eqn:Eloop
  end.
  cbn [trace hrt_now tune_control_pub] in *.
  eexists _, _. split; [reflexivity|]. cbn [trace]. split.
  - rewrite Htr, <- !app_assoc. reflexivity.
  - rewrite !sink_view_app, !map_app. cbn [sink_view flat_map sink_actions map app].
    rewrite app_nil_r. exact Hview.
Qed.

(** *** Only unknown options return -1 *)

Lemma option_case_code (tunes : Tunes) (ch : ascii) (arg : string)
  (l : locals) (w w' : World) (code : Z) :
  option_case strtol tunes ch arg l w = (Return code, w') ->
  known_option ch = true -> code = 1.
Proof.
  unfold option_case, known_option. cbn [existsb].
  repeat match goal with
         | |- context [if ?b then _ else _] => destruct b
         end; run_monad; intros H Hk; try discriminate H; try discriminate Hk;
    inversion H; reflexivity.
Qed.

Lemma getopt_loop_code (tunes : Tunes) (opts : list (ascii * string)) :
  forall (l : locals) (w w' : World) (code : Z),
    getopt_loop strtol tunes opts l w = (Return code, w') ->
    (forall c a, In (c, a) opts -> known_option c = true) -> code = 1.
Proof.
  induction opts as [|[c a] opts IH]; intros l w w' code H Hk.
  - cbn in H. unfold ret in H. discriminate H.
  - cbn [getopt_loop] in H. unfold bind in H.
    destruct (option_case strtol tunes c a l w) as [[l1|code1] w1] eqn:E.
    + apply (IH l1 w1 w' code H). intros c' a' Hin. apply (Hk c' a'). right. exact Hin.
    + unfold ret in H. inversion H; subst code1.
      apply (option_case_code tunes c a l w w1 code E). apply (Hk c a). left. reflexivity.
Qed.

Lemma tune_control_main_code (cl : command_line) (w w' : World) (code : Z) :
  tune_control_main strtol cl w = (code, w') ->
  (exists c0 a0 l0 w0 w1 code0,
      In (c0, a0) (options cl) /\
      option_case strtol Tunes_default c0 a0 l0 w0 = (Return code0, w1)) ->
  (forall c a, In (c, a) (options cl) -> known_option c = true) -> code = 1.
Proof.
  intros H (c0 & a0 & l0 & w0 & w1 & code0 & Hin & Hrej) Hk.
  destruct (getopt_loop_rejects strtol Tunes_default (options cl) c0 a0
              l0 w0 w1 code0 Hin Hrej locals_init w) as [code' [E _]].
  unfold tune_control_main, bind in H. rewrite E in H. unfold ret in H.
  inversion H; subst code'.
  exact (getopt_loop_code _ _ _ _ _ _ E Hk).
Qed.

(** *** Command lines with a single option *)

Lemma tune_control_main_single (ch : ascii) (arg : string)
  (ops : list string) (w : World) :
  tune_control_main strtol (mk_command_line [(ch, arg)] ops) w =
  match option_case strtol Tunes_default ch arg locals_init w with
  | (Continue l, w') => run_command Tunes_default l ops w'
  | (Return code, w') => (code, w')
  end.
Proof.
  unfold tune_control_main, bind. cbn [options operands getopt_loop].
  unfold bind, ret.
  destruct (option_case strtol Tunes_default ch arg locals_init w) as [[l|code] w'];
    reflexivity.
Qed.

Lemma option_case_f (tunes : Tunes) (arg : string) (l : locals) (w : World) :
  option_case strtol tunes "f" arg l w =
  if (uint16_t (strtol arg) >? 0) && (uint16_t (strtol arg) <? 22000)
  then (Continue (with_tune_control (set_frequency (uint16_t (strtol arg))) l), w)
  else (Return 1, after_usage w).
Proof.
  unfold option_case. cbn [Ascii.eqb Bool.eqb].
  destruct ((uint16_t (strtol arg) >? 0) && (uint16_t (strtol arg) <? 22000));
    reflexivity.
Qed.

Lemma option_case_t (tunes : Tunes) (arg : string) (l : locals) (w : World) :
  option_case strtol tunes "t" arg l w =
  if (uint8_t (strtol arg) >? 0)
     && (uint8_t (strtol arg) <? get_default_tunes_size tunes)
  then (Continue (with_tune_control (set_tune_id (uint8_t (strtol arg))) l), w)
  else (Return 1, after_usage w).
Proof.
  unfold option_case. cbn [Ascii.eqb Bool.eqb].
  destruct ((uint8_t (strtol arg) >? 0)
            && (uint8_t (strtol arg) <? get_default_tunes_size tunes));
    reflexivity.
Qed.

Lemma option_case_m (tunes : Tunes) (arg : string) (l : locals) (w : World) :
  option_case strtol tunes "m" arg l w =
  if first_char_is_M arg
  then (Continue (mk_locals true (Some arg) (tune_control l)), w)
  else (Return 1, after_usage w).
Proof.
  unfold option_case. cbn [Ascii.eqb Bool.eqb].
  destruct (first_char_is_M arg); reflexivity.
Qed.

Lemma option_case_s (tunes : Tunes) (arg : string) (l : locals) (w : World) :
  option_case strtol tunes "s" arg l w =
  (Continue (with_tune_control
               (set_strength
                  (if (uint8_t (strtol arg) >? 0) && (uint8_t (strtol arg) <? 100)
                   then uint8_t (strtol arg) else STRENGTH_NORMAL)) l), w).
Proof.
  unfold option_case. cbn [Ascii.eqb Bool.eqb].
  destruct ((uint8_t (strtol arg) >? 0) && (uint8_t (strtol arg) <? 100));
    reflexivity.
Qed.

Lemma first_char_is_M_false (s : string) :
  (forall s', s <> String "M" s') -> first_char_is_M s = false.
Proof.
  intros H. destruct s as [|c s]; [reflexivity|]. cbn.
  destruct (Ascii.eqb_spec c "M") as [->|]; [| reflexivity].
  exfalso. exact (H s eq_refl).
Qed.

End Commands.

(** * The claims *)

Section Claims.

Context {Tunes : Type} {tunes_api : TunesAPI Tunes}.
Variable strtol : string -> Z.

(** On a finite melody, [play] with a melody string publishes the first
    [MAX_NOTE_ITERATION + 1] notes of the melody, in order, and returns 0. *)
Lemma play_string_publishes_prefix (cl : command_line) (l : locals)
  (rest : list string) (w w1 : World) (notes : list next_tune) :
  getopt_loop strtol Tunes_default (options cl) locals_init w = (Continue l, w1) ->
  string_input l = true ->
  operands cl = "play" :: rest ->
  yields (set_string (melody_of l) (strength (tune_control l)) Tunes_default) notes ->
  exists (w' : World) (new : list effect),
    tune_control_main strtol cl w = (0, w') /\
    trace w' = trace w ++ new /\
    map unstamped (published new) =
      map (note_message false) (firstn (S (Z.to_nat MAX_NOTE_ITERATION)) notes) /\
    List.length (published new) =
      Nat.min (List.length notes) (S (Z.to_nat MAX_NOTE_ITERATION)).
Proof.
  intros Hopt Hs Hops Hy.
  rewrite (tune_control_main_accepted strtol cl l w w1 Hopt), Hops.
  destruct (run_command_play_string Tunes_default l rest w Hs)
    as (w' & new & Hrun & Htr & Hview).
  rewrite (getopt_loop_tune_override strtol _ _ _ _ _ _ Hopt) in Hview.
  cbn [locals_init tune_control tune_override set_strength set_tune_id
         tune_control_zero] in Hview.
  rewrite (take_notes_yields _ _ Hy) in Hview.
  assert (Hpub : map unstamped (published new) =
                 map (note_message false)
                     (firstn (S (Z.to_nat MAX_NOTE_ITERATION)) notes)).
  { unfold published. rewrite <- messages_unstamped, Hview.
    apply messages_rounds. }
  exists w', new. repeat split; try assumption.
  rewrite <- (length_map unstamped), Hpub, length_map, length_firstn.
  apply Nat.min_comm.
Qed.

(** C2 (amended).  When the options are accepted, [stop] publishes
    exactly one message, with [tune_id], [frequency], [duration] and
    [silence] zero and the override flag set, and then sleeps for
    [get_maximum_update_interval()] microseconds and returns 0.  The
    strength of the message is not zeroed: it is the strength the
    options left, [STRENGTH_NORMAL] when there is no [-s]. *)
Theorem C2_stop_publishes_one_override_event (cl : command_line) (l : locals)
  (rest : list string) (w w1 : World) :
  getopt_loop strtol Tunes_default (options cl) locals_init w = (Continue l, w1) ->
  operands cl = "stop" :: rest ->
  exists (w' : World) (m : tune_control_s),
    tune_control_main strtol cl w = (0, w') /\
    trace w' = trace w ++ [Info "Stopping playback..." [];
                           publication w m;
                           Usleep (get_maximum_update_interval Tunes_default)] /\
    sink_view [Info "Stopping playback..." []; publication w m;
               Usleep (get_maximum_update_interval Tunes_default)] =
      [Published m; Slept (get_maximum_update_interval Tunes_default)] /\
    tune_id m = 0 /\ frequency m = 0 /\ duration m = 0 /\ silence m = 0 /\
    tune_override m = true /\
    strength m = strength (tune_control l) /\
    (absent "s" (options cl) -> strength m = STRENGTH_NORMAL).
Proof.
  intros Hopt Hops.
  rewrite (tune_control_main_accepted strtol cl l w w1 Hopt), Hops.
  destruct (run_command_stop Tunes_default l rest w) as (w' & Hrun & Htr).
  exists w', (stop_message l w).
  repeat split; try assumption.
  - unfold publication. destruct (tune_control_pub w); reflexivity.
  - intros Habs. cbn [stop_message strength].
    rewrite (getopt_loop_no_s strtol _ _ _ _ _ _ Habs Hopt). reflexivity.
Qed.

(** C4.  A melody string that does not begin with 'M' (the empty string
    included) makes the command print the usage text and return a
    non-zero status, 1 unless an option unknown to the command came
    first; nothing is published and none of [set_string], [set_control]
    and [get_next_tune] is called: the usage text is the only effect. *)
Theorem C4_melody_without_marker_is_rejected (cl : command_line)
  (s : string) (w : World) :
  In ("m"%char, s) (options cl) ->
  (forall s', s <> String "M" s') ->
  exists code,
    tune_control_main strtol cl w = (code, after_usage w) /\
    (code = 1 \/ code = -1) /\
    ((forall c a, In (c, a) (options cl) -> known_option c = true) -> code = 1) /\
    trace (after_usage w) = trace w ++ [Usage] /\
    published (trace (after_usage w)) = published (trace w).
Proof.
  intros Hin Hs. apply first_char_is_M_false in Hs.
  assert (Hrej : option_case strtol Tunes_default "m" s locals_init w
                 = (Return 1, after_usage w)).
  { rewrite option_case_m, Hs. reflexivity. }
  destruct (tune_control_main_rejected strtol cl "m" s locals_init w
              (after_usage w) 1 w Hin Hrej) as [code [E Hc]].
  exists code. repeat split; [exact E | exact Hc | | apply after_usage_published].
  intros Hk. apply (tune_control_main_code strtol cl w (after_usage w) code E); [| exact Hk].
  exists "m"%char, s, locals_init, w, (after_usage w), 1. split; assumption.
Qed.

(** What [play] does after a single accepted option that is not [-m]. *)
Lemma play_after_single_option (ch : ascii) (arg : string) (l : locals)
  (rest : list string) (w : World) :
  option_case strtol Tunes_default ch arg locals_init w = (Continue l, w) ->
  string_input l = false ->
  exists w',
    tune_control_main strtol (mk_command_line [(ch, arg)] ("play" :: rest)) w
    = (0, w') /\
    published (trace w') = published (trace w) ++ [single_message l w].
Proof.
  intros E Hs. rewrite tune_control_main_single, E.
  destruct (run_command_play_single Tunes_default l rest w Hs) as (w' & Hrun & Htr).
  exists w'. split; [exact Hrun|].
  rewrite Htr. unfold published. rewrite sink_view_app.
  unfold messages at 1. rewrite flat_map_app. f_equal.
  unfold publication. destruct (tune_control_pub w); reflexivity.
Qed.

Lemma exact_pause_unstamped (m : tune_control_s) :
  exact_pause (unstamped m) = exact_pause m.
Proof. reflexivity. Qed.

Lemma flat_map_agree {A B : Type} (f g : A -> list B) (xs : list A) :
  (forall x, In x xs -> f x = g x) -> flat_map f xs = flat_map g xs.
Proof.
  induction xs as [|x xs IH]; intros H; [reflexivity|].
  cbn [flat_map]. rewrite (H x (or_introl eq_refl)), IH; [reflexivity|].
  intros y Hy. apply H. right. exact Hy.
Qed.

(** For a note that fits, the 32-bit sum the code hands to [usleep] is the
    sum of the two time fields of the message. *)
Lemma wrapped_pause_fits (ov : bool) (n : next_tune) :
  fits_usleep n ->
  wrapped_pause (note_message ov n) = exact_pause (note_message ov n).
Proof.
  intros (Hd & Hs & Hsum).
  unfold wrapped_pause, exact_pause, note_message.
  cbn [duration silence]. unfold uint32_t.
  rewrite wrap_add_wrap, !wrap_small by lia. reflexivity.
Qed.

(** C7.  When the options are accepted and a melody string was given,
    [play] publishes the notes of the melody one at a time, in the order
    in which [get_next_tune] hands them out, from the first on, for as
    many rounds as the loop makes; after each publication, and before the
    next, it sleeps for exactly [duration + silence] microseconds of the
    message just published.  Nothing else is published and there is no
    other sleep; the command returns 0.  The notes are those of a [Tunes]
    object whose tone and pause together fit the 32 bits of the argument
    of [usleep]. *)
Theorem C7_play_sleeps_after_each_event (cl : command_line) (l : locals)
  (rest : list string) (w w1 : World) :
  getopt_loop strtol Tunes_default (options cl) locals_init w = (Continue l, w1) ->
  string_input l = true ->
  operands cl = "play" :: rest ->
  let loaded :=
    set_string (melody_of l) (strength (tune_control l)) Tunes_default in
  (forall k n, In n (take_notes k loaded) -> fits_usleep n) ->
  let notes := take_notes (S (Z.to_nat MAX_NOTE_ITERATION)) loaded in
  exists (w' : World) (new : list effect),
    tune_control_main strtol cl w = (0, w') /\
    trace w' = trace w ++ new /\
    map unstamped_action (sink_view new) =
      flat_map (fun n => round_view exact_pause (note_message false n)) notes /\
    map unstamped (published new) = map (note_message false) notes /\
    paced exact_pause (sink_view new) = true.
Proof.
  intros Hopt Hs Hops loaded Hfit notes.
  rewrite (tune_control_main_accepted strtol cl l w w1 Hopt), Hops.
  destruct (run_command_play_string Tunes_default l rest w Hs)
    as (w' & new & Hrun & Htr & Hview).
  rewrite (getopt_loop_tune_override strtol _ _ _ _ _ _ Hopt) in Hview.
  cbn [locals_init tune_control tune_override set_strength set_tune_id
         tune_control_zero] in Hview.
  fold loaded in Hview. fold notes in Hview.
  assert (Hexact : map unstamped_action (sink_view new) =
                   flat_map (fun n => round_view exact_pause (note_message false n))
                            notes).
  { rewrite Hview. apply flat_map_agree. intros n Hin.
    unfold round_view. rewrite (wrapped_pause_fits false n); [reflexivity|].
    exact (Hfit _ n Hin). }
  exists w', new.
  split; [exact Hrun|]. split; [exact Htr|]. split; [exact Hexact|].
  split.
  - unfold published. rewrite <- messages_unstamped, Hexact.
    apply messages_rounds.
  - rewrite <- (paced_unstamped exact_pause exact_pause_unstamped), Hexact.
    apply paced_rounds.
Qed.

(** C8.  When the options are accepted, there is no [-m], and the last
    [-t] has argument [arg], [play] publishes exactly one message and
    does nothing else but log a line: it does not sleep, and the clock
    is where it was.  The message carries in [tune_id] the table index,
    that is the argument as the 8-bit value that passed the range test
    (the argument itself when it is below 256).  It returns 0. *)
Theorem C8_play_tune_id_publishes_once (cl : command_line) (l : locals)
  (rest : list string) (w w1 : World) (arg : string) :
  getopt_loop strtol Tunes_default (options cl) locals_init w = (Continue l, w1) ->
  absent "m" (options cl) ->
  last_option "t" (options cl) = Some arg ->
  operands cl = "play" :: rest ->
  exists (w' : World) (m : tune_control_s),
    tune_control_main strtol cl w = (0, w') /\
    trace w' = trace w ++ [Info "Publishing standard tune %d" [tune_id m];
                           publication w m] /\
    sink_view [Info "Publishing standard tune %d" [tune_id m]; publication w m]
      = [Published m] /\
    tune_id m = uint8_t (strtol arg) /\
    0 < tune_id m < get_default_tunes_size Tunes_default /\
    (0 <= strtol arg < 256 -> tune_id m = strtol arg) /\
    frequency m = frequency (tune_control l) /\
    duration m = duration (tune_control l) /\
    strength m = strength (tune_control l).
Proof.
  intros Hopt Hm Ht Hops.
  rewrite (tune_control_main_accepted strtol cl l w w1 Hopt), Hops.
  pose proof (getopt_loop_no_m strtol _ _ _ _ _ _ Hm Hopt) as Hs. cbn in Hs.
  destruct (getopt_loop_last_t strtol _ _ _ _ _ _ _ Hopt Ht) as [Hid Hr].
  destruct (run_command_play_single Tunes_default l rest w Hs) as (w' & Hrun & Htr).
  assert (Eid : single_message l w = set_timestamp (hrt_now w) (tune_control l)).
  { unfold single_message.
    assert (Hnz : (tune_id (tune_control l) =? 0) = false)
      by (apply Z.eqb_neq; lia).
    rewrite Hnz. reflexivity. }
  exists w', (single_message l w).
  repeat split; try assumption;
    try (rewrite Eid; cbn; first [exact Hid | lia | reflexivity]).
  - unfold publication. destruct (tune_control_pub w); reflexivity.
  - intros Hb. rewrite Eid. cbn. rewrite Hid. apply wrap_small. cbn. lia.
Qed.

(** C9.  When the options are accepted and there is neither [-m] nor
    [-t], [play] publishes exactly one message, with [tune_id] 1, and
    returns 0. *)
Theorem C9_play_defaults_to_tune_1 (cl : command_line) (l : locals)
  (rest : list string) (w w1 : World) :
  getopt_loop strtol Tunes_default (options cl) locals_init w = (Continue l, w1) ->
  absent "m" (options cl) ->
  absent "t" (options cl) ->
  operands cl = "play" :: rest ->
  exists (w' : World) (m : tune_control_s),
    tune_control_main strtol cl w = (0, w') /\
    trace w' = trace w ++ [Info "Publishing standard tune %d" [1];
                           publication w m] /\
    sink_view [Info "Publishing standard tune %d" [1]; publication w m]
      = [Published m] /\
    tune_id m = 1.
Proof.
  intros Hopt Hm Ht Hops.
  rewrite (tune_control_main_accepted strtol cl l w w1 Hopt), Hops.
  pose proof (getopt_loop_no_m strtol _ _ _ _ _ _ Hm Hopt) as Hs. cbn in Hs.
  pose proof (getopt_loop_no_t strtol _ _ _ _ _ _ Ht Hopt) as Hid. cbn in Hid.
  destruct (run_command_play_single Tunes_default l rest w Hs) as (w' & Hrun & Htr).
  assert (Eid : tune_id (single_message l w) = 1).
  { unfold single_message. rewrite Hid. reflexivity. }
  rewrite Eid in Htr.
  exists w', (single_message l w).
  repeat split; try assumption.
  unfold publication. destruct (tune_control_pub w); reflexivity.
Qed.

(** C10.  [play -f arg] succeeds exactly when the argument reduced modulo
    2^16 is strictly between 0 and 22000, and the message it then
    publishes carries the reduced value as its frequency.  So the
    argument 65537 is accepted, with frequency 1. *)
Theorem C10_frequency_is_reduced_modulo_65536 (arg : string)
  (rest : list string) (w : World) :
  let cl := mk_command_line [("f"%char, arg)] ("play" :: rest) in
  (fst (tune_control_main strtol cl w) = 0 <-> 0 < strtol arg mod 65536 < 22000) /\
  (0 < strtol arg mod 65536 < 22000 ->
   exists m,
     published (trace (snd (tune_control_main strtol cl w)))
     = published (trace w) ++ [m] /\
     frequency m = strtol arg mod 65536) /\
  (strtol arg = 65537 ->
   fst (tune_control_main strtol cl w) = 0 /\
   exists m,
     published (trace (snd (tune_control_main strtol cl w)))
     = published (trace w) ++ [m] /\
     frequency m = 1).
Proof.
  intros cl.
  assert (Hacc : 0 < strtol arg mod 65536 < 22000 ->
                 fst (tune_control_main strtol cl w) = 0 /\
                 exists m,
                   published (trace (snd (tune_control_main strtol cl w)))
                   = published (trace w) ++ [m] /\
                   frequency m = strtol arg mod 65536).
  { intros Hr. rewrite <- uint16_t_mod in Hr.
    pose proof (option_case_f strtol Tunes_default arg locals_init w) as E.
    apply range_test_true in Hr. rewrite Hr in E.
    destruct (play_after_single_option "f" arg _ rest w E eq_refl)
      as (w' & Hrun & Hpub).
    subst cl. rewrite Hrun. cbn [fst snd]. split; [reflexivity|].
    eexists. split; [exact Hpub|].
    unfold single_message. cbn. rewrite uint16_t_mod. reflexivity. }
  split; [split | split].
  - intros H0.
    destruct ((uint16_t (strtol arg) >? 0) && (uint16_t (strtol arg) <? 22000))
      eqn:Hr.
    + apply range_test_true in Hr. rewrite uint16_t_mod in Hr. exact Hr.
    + subst cl. rewrite tune_control_main_single, option_case_f, Hr in H0.
      cbn in H0. discriminate H0.
  - intros Hr. apply (Hacc Hr).
  - intros Hr. apply (Hacc Hr).
  - intros E.
    assert (Hr : 0 < strtol arg mod 65536 < 22000)
      by (rewrite E; cbv; split; reflexivity).
    destruct (Hacc Hr) as [Hz [m [Hpub Hf]]].
    split; [exact Hz|]. exists m. split; [exact Hpub|].
    rewrite Hf, E. reflexivity.
Qed.

End Claims.

(** * Runs of the command *)

(** The scripted object hands out exactly the notes it holds. *)
Lemma scripted_yields (table_size interval : Z)
  (compile : string -> Z -> list next_tune) (notes : list next_tune) :
  @yields _ (scripted table_size interval compile) notes notes.
Proof.
  induction notes as [|n notes IH].
  - apply (@yields_end _ (scripted table_size interval compile)
             [] 0 (mk_next_tune 0 0 0 0) []); [reflexivity | lia].
  - apply (@yields_note _ (scripted table_size interval compile)
             (n :: notes) 1 n notes notes); [reflexivity | lia | exact IH].
Qed.

(** C1.  The bound of the claim, the smaller of the melody length and
    [MAX_NOTE_ITERATION] = 50, is not kept by the code: the counter is
    compared with the bound by [>] after it has been incremented, so the
    loop stops after the 51st publication.  [play -m] with a melody of
    sixty notes returns 0, as claimed, and publishes 51 messages. *)
Theorem C1_sixty_note_melody_publishes_51_events :
  let cl := mk_command_line [("m"%char, sixty_notes)] ["play"] in
  let notes := note_per_char sixty_notes STRENGTH_NORMAL in
  @yields _ demo_tunes
     (@set_string _ demo_tunes sixty_notes STRENGTH_NORMAL
        (@Tunes_default _ demo_tunes)) notes /\
  List.length notes = 60%nat /\
  fst (demo_main cl boot_world) = 0 /\
  List.length (published (trace (snd (demo_main cl boot_world)))) = 51%nat /\
  (Nat.min 60 (Z.to_nat MAX_NOTE_ITERATION) < 51)%nat.
Proof.
  intros cl notes. split; [apply scripted_yields|].
  split; [reflexivity|]. split; [vm_compute; reflexivity|].
  split; [vm_compute; reflexivity | vm_compute; lia].
Qed.

(** C2, as stated, fails: [stop] without options publishes one message
    whose strength is 40, not 0. *)
Lemma C2_counterexample_strength_not_zeroed :
  let run := demo_main (mk_command_line [] ["stop"]) boot_world in
  fst run = 0 /\
  exists m, published (trace (snd run)) = [m] /\
            strength m = 40 /\
            ~ (tune_id m = 0 /\ frequency m = 0 /\ duration m = 0 /\
               silence m = 0 /\ strength m = 0).
Proof.
  cbv zeta. split; [vm_compute; reflexivity|].
  eexists. split; [vm_compute; reflexivity|].
  split; [reflexivity|]. cbn. intros (_ & _ & _ & _ & H). discriminate H.
Qed.

(** C3.  The rule of the claim, that a frequency is accepted only when it
    lies strictly between 0 and 22000, is the rule the code tests for, but
    the code tests it after the conversion to [uint16_t]: 65537 is not
    below 22000, yet [play -f 65537] is not refused.  It returns 0 and
    publishes a message with frequency 1. *)
Theorem C3_frequency_65537_is_accepted :
  let run := demo_main (mk_command_line [("f"%char, "65537")] ["play"]) boot_world in
  strtol_decimal "65537" = 65537 /\
  ~ 0 < strtol_decimal "65537" < 22000 /\
  fst run = 0 /\
  exists m, published (trace (snd run)) = [m] /\ frequency m = 1.
Proof.
  cbv zeta. split; [reflexivity|].
  split; [vm_compute; intros [_ H]; discriminate H|].
  split; [vm_compute; reflexivity|].
  eexists. split; [vm_compute; reflexivity | reflexivity].
Qed.

(** C5.  The rule of the claim, that a tune index is accepted only when it
    lies strictly between 0 and the table size, is the rule the code tests
    for, but the code tests it after the conversion to [uint8_t]: 257 is
    not below the table size 21, yet [play -t 257] is not refused.  It
    returns 0 and publishes a message with tune id 1. *)
Theorem C5_tune_index_257_is_accepted :
  let run := demo_main (mk_command_line [("t"%char, "257")] ["play"]) boot_world in
  strtol_decimal "257" = 257 /\
  @get_default_tunes_size _ demo_tunes (@Tunes_default _ demo_tunes) = 21 /\
  ~ 0 < strtol_decimal "257" < 21 /\
  fst run = 0 /\
  exists m, published (trace (snd run)) = [m] /\ tune_id m = 1.
Proof.
  cbv zeta. split; [reflexivity|]. split; [reflexivity|].
  split; [vm_compute; intros [_ H]; discriminate H|].
  split; [vm_compute; reflexivity|].
  eexists. split; [vm_compute; reflexivity | reflexivity].
Qed.

(** C6.  The rule of the claim, that a strength outside (0, 100) gives the
    default 40, is the rule the code tests for, but the code tests it
    after the conversion to [uint8_t]: 257 is outside (0, 100), yet
    [play -s 257] publishes a message with strength 1, not 40.  As
    claimed, the option is no error: the command returns 0. *)
Theorem C6_strength_257_is_not_defaulted :
  let run := demo_main (mk_command_line [("s"%char, "257")] ["play"]) boot_world in
  strtol_decimal "257" = 257 /\
  ~ 0 < strtol_decimal "257" < 100 /\
  fst run = 0 /\
  exists m, published (trace (snd run)) = [m] /\
            strength m = 1 /\ strength m <> STRENGTH_NORMAL.
Proof.
  cbv zeta. split; [reflexivity|].
  split; [vm_compute; intros [_ H]; discriminate H|].
  split; [vm_compute; reflexivity|].
  eexists. split; [vm_compute; reflexivity|].
  split; [reflexivity | cbn; discriminate].
Qed.

(** * The theorems at concrete command lines *)

(** C2 at [stop -s 60]: the options are accepted and the command line
    names [stop]. *)
Lemma C2_witness_stop_with_strength :
  let cl := mk_command_line [("s"%char, "60")] ["stop"] in
  let l := with_tune_control (set_strength 60) locals_init in
  @getopt_loop _ demo_tunes strtol_decimal (@Tunes_default _ demo_tunes)
     (options cl) locals_init boot_world = (Continue l, boot_world) /\
  operands cl = ["stop"] /\
  exists (w' : World) (m : tune_control_s),
    demo_main cl boot_world = (0, w') /\
    trace w' = trace boot_world ++
               [Info "Stopping playback..." []; publication boot_world m;
                Usleep (@get_maximum_update_interval _ demo_tunes
                          (@Tunes_default _ demo_tunes))] /\
    sink_view [Info "Stopping playback..." []; publication boot_world m;
               Usleep (@get_maximum_update_interval _ demo_tunes
                         (@Tunes_default _ demo_tunes))] =
      [Published m; Slept (@get_maximum_update_interval _ demo_tunes
                             (@Tunes_default _ demo_tunes))] /\
    tune_id m = 0 /\ frequency m = 0 /\ duration m = 0 /\ silence m = 0 /\
    tune_override m = true /\
    strength m = strength (tune_control l) /\
    (absent "s" (options cl) -> strength m = STRENGTH_NORMAL).
Proof.
  intros cl l.
  assert (Hopt : @getopt_loop _ demo_tunes strtol_decimal (@Tunes_default _ demo_tunes)
                   (options cl) locals_init boot_world = (Continue l, boot_world))
    by reflexivity.
  assert (Hops : operands cl = ["stop"]) by reflexivity.
  split; [exact Hopt|]. split; [exact Hops|].
  exact (@C2_stop_publishes_one_override_event _ demo_tunes strtol_decimal
           cl l [] boot_world boot_world Hopt Hops).
Defined.

(** C4 at [play -m abc] and at [play -d 5 -m] with an empty melody:
    neither string begins with 'M'. *)
Lemma C4_witness_unmarked_and_empty_melody :
  let cl1 := mk_command_line [("m"%char, "abc")] ["play"] in
  let cl2 := mk_command_line [("d"%char, "5"); ("m"%char, EmptyString)] ["play"] in
  (In ("m"%char, "abc") (options cl1) /\ (forall s', "abc" <> String "M" s') /\
   exists code,
     demo_main cl1 boot_world = (code, after_usage boot_world) /\
     (code = 1 \/ code = -1) /\
     ((forall c a, In (c, a) (options cl1) -> known_option c = true) -> code = 1) /\
     trace (after_usage boot_world) = trace boot_world ++ [Usage] /\
     published (trace (after_usage boot_world)) = published (trace boot_world)) /\
  (In ("m"%char, EmptyString) (options cl2) /\ (forall s', EmptyString <> String "M" s') /\
   exists code,
     demo_main cl2 boot_world = (code, after_usage boot_world) /\
     (code = 1 \/ code = -1) /\
     ((forall c a, In (c, a) (options cl2) -> known_option c = true) -> code = 1) /\
     trace (after_usage boot_world) = trace boot_world ++ [Usage] /\
     published (trace (after_usage boot_world)) = published (trace boot_world)).
Proof.
  intros cl1 cl2.
  assert (Hin1 : In ("m"%char, "abc") (options cl1)) by (left; reflexivity).
  assert (Hs1 : forall s', "abc" <> String "M" s') by (intros s' H; discriminate H).
  assert (Hin2 : In ("m"%char, EmptyString) (options cl2)) by (right; left; reflexivity).
  assert (Hs2 : forall s', EmptyString <> String "M" s') by (intros s' H; discriminate H).
  split; (split; [assumption|]); (split; [assumption|]).
  - exact (@C4_melody_without_marker_is_rejected _ demo_tunes strtol_decimal
             cl1 "abc" boot_world Hin1 Hs1).
  - exact (@C4_melody_without_marker_is_rejected _ demo_tunes strtol_decimal
             cl2 EmptyString boot_world Hin2 Hs2).
Defined.

(** The scripted object hands out only notes it holds. *)
Lemma scripted_take_notes_in (table_size interval : Z)
  (compile : string -> Z -> list next_tune) (k : nat) :
  forall (tunes : list next_tune) (n : next_tune),
    In n (@take_notes _ (scripted table_size interval compile) k tunes) ->
    In n tunes.
Proof.
  induction k as [|k IH]; intros tunes n Hin; [destruct Hin|].
  destruct tunes as [|n0 tunes]; [destruct Hin|].
  destruct Hin as [Heq|Hin]; [left; exact Heq | right; exact (IH tunes n Hin)].
Defined.

(** C7 at [play -m Mabc]: the options are accepted with a melody string,
    and the three notes of the melody fit. *)
Lemma C7_witness_three_notes :
  let cl := mk_command_line [("m"%char, "Mabc")] ["play"] in
  let l := mk_locals true (Some "Mabc") (tune_control locals_init) in
  let loaded := @set_string _ demo_tunes (melody_of l) (strength (tune_control l))
                  (@Tunes_default _ demo_tunes) in
  let notes := @take_notes _ demo_tunes (S (Z.to_nat MAX_NOTE_ITERATION)) loaded in
  @getopt_loop _ demo_tunes strtol_decimal (@Tunes_default _ demo_tunes)
     (options cl) locals_init boot_world = (Continue l, boot_world) /\
  string_input l = true /\
  operands cl = ["play"] /\
  (forall k n, In n (@take_notes _ demo_tunes k loaded) -> fits_usleep n) /\
  exists (w' : World) (new : list effect),
    demo_main cl boot_world = (0, w') /\
    trace w' = trace boot_world ++ new /\
    map unstamped_action (sink_view new) =
      flat_map (fun n => round_view exact_pause (note_message false n)) notes /\
    map unstamped (published new) = map (note_message false) notes /\
    paced exact_pause (sink_view new) = true.
Proof.
  intros cl l loaded notes.
  assert (Hopt : @getopt_loop _ demo_tunes strtol_decimal (@Tunes_default _ demo_tunes)
                   (options cl) locals_init boot_world = (Continue l, boot_world))
    by reflexivity.
  assert (Hs : string_input l = true) by reflexivity.
  assert (Hops : operands cl = ["play"]) by reflexivity.
  assert (Hfit : forall k n, In n (@take_notes _ demo_tunes k loaded) -> fits_usleep n).
  { intros k n Hin.
    apply (scripted_take_notes_in 21 100000 note_per_char k loaded n) in Hin.
    vm_compute in Hin.
    destruct Hin as [<-|[<-|[<-|[]]]]; unfold fits_usleep; cbn; lia. }
  split; [exact Hopt|]. split; [exact Hs|]. split; [exact Hops|]. split; [exact Hfit|].
  exact (@C7_play_sleeps_after_each_event _ demo_tunes strtol_decimal
           cl l [] boot_world boot_world Hopt Hs Hops Hfit).
Defined.

(** C8 at [play -t 2], the example of the usage text. *)
Lemma C8_witness_play_tune_2 :
  let cl := mk_command_line [("t"%char, "2")] ["play"] in
  let l := with_tune_control (set_tune_id 2) locals_init in
  @getopt_loop _ demo_tunes strtol_decimal (@Tunes_default _ demo_tunes)
     (options cl) locals_init boot_world = (Continue l, boot_world) /\
  absent "m" (options cl) /\
  last_option "t" (options cl) = Some "2" /\
  operands cl = ["play"] /\
  exists (w' : World) (m : tune_control_s),
    demo_main cl boot_world = (0, w') /\
    trace w' = trace boot_world ++
               [Info "Publishing standard tune %d" [tune_id m];
                publication boot_world m] /\
    sink_view [Info "Publishing standard tune %d" [tune_id m];
               publication boot_world m] = [Published m] /\
    tune_id m = uint8_t (strtol_decimal "2") /\
    0 < tune_id m < @get_default_tunes_size _ demo_tunes (@Tunes_default _ demo_tunes) /\
    (0 <= strtol_decimal "2" < 256 -> tune_id m = strtol_decimal "2") /\
    frequency m = frequency (tune_control l) /\
    duration m = duration (tune_control l) /\
    strength m = strength (tune_control l).
Proof.
  intros cl l.
  assert (Hopt : @getopt_loop _ demo_tunes strtol_decimal (@Tunes_default _ demo_tunes)
                   (options cl) locals_init boot_world = (Continue l, boot_world))
    by reflexivity.
  assert (Hm : absent "m" (options cl)).
  { intros arg [H|[]]. discriminate H. }
  assert (Ht : last_option "t" (options cl) = Some "2") by reflexivity.
  assert (Hops : operands cl = ["play"]) by reflexivity.
  split; [exact Hopt|]. split; [exact Hm|]. split; [exact Ht|]. split; [exact Hops|].
  exact (@C8_play_tune_id_publishes_once _ demo_tunes strtol_decimal
           cl l [] boot_world boot_world "2" Hopt Hm Ht Hops).
Defined.

(** C9 at [play] without options. *)
Lemma C9_witness_bare_play :
  let cl := mk_command_line [] ["play"] in
  @getopt_loop _ demo_tunes strtol_decimal (@Tunes_default _ demo_tunes)
     (options cl) locals_init boot_world = (Continue locals_init, boot_world) /\
  absent "m" (options cl) /\
  absent "t" (options cl) /\
  operands cl = ["play"] /\
  exists (w' : World) (m : tune_control_s),
    demo_main cl boot_world = (0, w') /\
    trace w' = trace boot_world ++
               [Info "Publishing standard tune %d" [1]; publication boot_world m] /\
    sink_view [Info "Publishing standard tune %d" [1]; publication boot_world m]
      = [Published m] /\
    tune_id m = 1.
Proof.
  intros cl.
  assert (Hopt : @getopt_loop _ demo_tunes strtol_decimal (@Tunes_default _ demo_tunes)
                   (options cl) locals_init boot_world
                 = (Continue locals_init, boot_world)) by reflexivity.
  assert (Hm : absent "m" (options cl)) by (intros arg []).
  assert (Ht : absent "t" (options cl)) by (intros arg []).
  assert (Hops : operands cl = ["play"]) by reflexivity.
  split; [exact Hopt|]. split; [exact Hm|]. split; [exact Ht|]. split; [exact Hops|].
  exact (@C9_play_defaults_to_tune_1 _ demo_tunes strtol_decimal
           cl locals_init [] boot_world boot_world Hopt Hm Ht Hops).
Defined.

(** C10 at [play -f 65537]. *)
Lemma C10_witness_65537 :
  let cl := mk_command_line [("f"%char, "65537")] ["play"] in
  strtol_decimal "65537" = 65537 /\
  fst (demo_main cl boot_world) = 0 /\
  exists m,
    published (trace (snd (demo_main cl boot_world)))
    = published (trace boot_world) ++ [m] /\
    frequency m = 1.
Proof.
  intros cl.
  assert (H : strtol_decimal "65537" = 65537) by reflexivity.
  split; [exact H|].
  exact (proj2 (proj2 (@C10_frequency_is_reduced_modulo_65536 _ demo_tunes
                         strtol_decimal "65537" [] boot_world)) H).
Defined.

(** * Further properties of the command *)

(** ** Which command lines are taken in *)

Section Acceptance.

Context {Tunes : Type} {tunes_api : TunesAPI Tunes}.
Variable strtol : string -> Z.

(** Whether an option is taken in does not depend on the locals or the
    world. *)
Lemma option_case_continue_any (tunes : Tunes) (ch : ascii) (arg : string)
  (l l' : locals) (w w' : World) :
  option_case strtol tunes ch arg l w = (Continue l', w') ->
  forall l2 w2, exists l2', option_case strtol tunes ch arg l2 w2 = (Continue l2', w2).
Proof.
  intros H l2 w2.
  destruct (option_case_cases strtol tunes ch arg l2 w2) as [Hc|[code [E _]]];
    [exact Hc|].
  rewrite (option_case_return_any strtol tunes ch arg l2 w2 _ code E l w) in H.
  discriminate H.
Qed.

(** Whether the loop takes in a command line does not depend on the
    locals or the world either. *)
Lemma getopt_loop_continue_any (tunes : Tunes) (opts : list (ascii * string)) :
  forall (l l' : locals) (w w' : World),
    getopt_loop strtol tunes opts l w = (Continue l', w') ->
    forall l2 w2, exists l2',
      getopt_loop strtol tunes opts l2 w2 = (Continue l2', w2).
Proof.
  induction opts as [|[c a] opts IH]; intros l l' w w' H l2 w2.
  - exists l2. reflexivity.
  - cbn [getopt_loop] in *. unfold bind in *.
    destruct (option_case strtol tunes c a l w) as [[l1|code] w1] eqn:E;
      [| unfold ret in H; discriminate H].
    destruct (option_case_continue_any _ _ _ _ _ _ _ E l2 w2) as [l3 E3].
    rewrite E3. exact (IH _ _ _ _ H l3 w2).
Qed.

Lemma accepted_nil : accepted strtol [].
Proof. intros l w. exists l. reflexivity. Qed.

(** One accepted run of the loop shows that the options are accepted. *)
Lemma accepted_of_run (opts : list (ascii * string)) (l l' : locals) (w w' : World) :
  getopt_loop strtol Tunes_default opts l w = (Continue l', w') ->
  accepted strtol opts.
Proof.
  intros H l2 w2. exact (getopt_loop_continue_any _ _ _ _ _ _ H l2 w2).
Qed.

Lemma accepted_cons (c : ascii) (a : string) (opts : list (ascii * string)) :
  accepted strtol ((c, a) :: opts) <->
  accepted strtol [(c, a)] /\ accepted strtol opts.
Proof.
  split.
  - intros H. destruct (H locals_init boot_world) as [l' E].
    cbn [getopt_loop] in E. unfold bind in E.
    destruct (option_case strtol Tunes_default c a locals_init boot_world)
      as [[l1|code] w1] eqn:E1; [| unfold ret in E; discriminate E].
    split.
    + intros l w. destruct (option_case_continue_any _ _ _ _ _ _ _ E1 l w) as [l3 E3].
      exists l3. cbn [getopt_loop]. unfold bind, ret. rewrite E3. reflexivity.
    + exact (accepted_of_run _ _ _ _ _ E).
  - intros [H1 H2] l w. destruct (H1 l w) as [l1 E1].
    cbn [getopt_loop] in *. unfold bind in *.
    destruct (option_case strtol Tunes_default c a l w) as [[l2|code] w2] eqn:E;
      [| unfold ret in E1; discriminate E1].
    unfold ret in E1. inversion E1; subst. apply H2.
Qed.

Lemma accepted_forall (opts : list (ascii * string)) :
  accepted strtol opts <->
  (forall c a, In (c, a) opts -> accepted strtol [(c, a)]).
Proof.
  induction opts as [|[c a] opts IH].
  - split; [intros _ c a [] | intros _; apply accepted_nil].
  - rewrite accepted_cons, IH. split.
    + intros [H1 H2] c' a' [Heq|Hin]; [inversion Heq; subst; exact H1 | exact (H2 c' a' Hin)].
    + intros H. split; [apply H; left; reflexivity|].
      intros c' a' Hin. apply H. right. exact Hin.
Qed.

(** X1.  A command line is taken in by the option loop exactly when each
    of its options is taken in on a command line of its own; so whether it
    is taken in does not depend on the order of the options, and a command
    line made of two accepted ones is accepted. *)
Theorem X1_acceptance_is_per_option (opts opts' : list (ascii * string)) :
  (accepted strtol opts <->
   forall c a, In (c, a) opts -> accepted strtol [(c, a)]) /\
  (Permutation opts opts' -> (accepted strtol opts <-> accepted strtol opts')) /\
  (accepted strtol (opts ++ opts') <-> accepted strtol opts /\ accepted strtol opts').
Proof.
  split; [apply accepted_forall|]. split.
  - intros Hp. rewrite !accepted_forall. split; intros H c a Hin; apply H.
    + apply (Permutation_in _ (Permutation_sym Hp)). exact Hin.
    + apply (Permutation_in _ Hp). exact Hin.
  - rewrite !accepted_forall. split.
    + intros H. split; intros c a Hin; apply H; apply in_or_app; [left|right]; exact Hin.
    + intros [H1 H2] c a Hin. apply in_app_or in Hin. destruct Hin; [apply H1|apply H2]; assumption.
Qed.

(** X2.  When the options before an option are accepted and that option is
    not, the command prints the usage text and returns at that option:
    with -1 when the option character is none of f, d, t, m, s, and with 1
    otherwise.  The options after it are not looked at. *)
Theorem X2_first_rejected_option_decides (cl : command_line)
  (pre post : list (ascii * string)) (c : ascii) (a : string) (w : World) :
  options cl = pre ++ (c, a) :: post ->
  accepted strtol pre ->
  ~ accepted strtol [(c, a)] ->
  tune_control_main strtol cl w =
  (if known_option c then 1 else -1, after_usage w).
Proof.
  intros Hopts Hpre Hrej.
  assert (Hone : exists code,
             option_case strtol Tunes_default c a locals_init w
             = (Return code, after_usage w)).
  { destruct (option_case_cases strtol Tunes_default c a locals_init w)
      as [[l' E]|[code [E _]]]; [| exists code; exact E].
    exfalso. apply Hrej. intros l2 w2.
    destruct (option_case_continue_any _ _ _ _ _ _ _ E l2 w2) as [l3 E3].
    exists l3. cbn [getopt_loop]. unfold bind, ret. rewrite E3. reflexivity. }
  destruct Hone as [code Hone].
  assert (Hcode : code = if known_option c then 1 else -1).
  { destruct (known_option c) eqn:K.
    - exact (option_case_code strtol _ _ _ _ _ _ _ Hone K).
    - unfold known_option in K. cbn [existsb] in K.
      repeat (apply orb_false_iff in K; destruct K as [? K]).
      unfold option_case in Hone.
      repeat match type of Hone with
             | context [Ascii.eqb c ?x] =>
                 match goal with
                 | Hx : Ascii.eqb c x = false |- _ => rewrite Hx in Hone
                 end
             end.
      unfold bind, usage, emit, ret in Hone. inversion Hone. reflexivity. }
  unfold tune_control_main, bind. rewrite Hopts.
  assert (Hloop : forall l, getopt_loop strtol Tunes_default (pre ++ (c, a) :: post) l w
                            = (Return code, after_usage w)).
  { clear Hopts. induction pre as [|[c' a'] pre IH]; intros l.
    - cbn [app getopt_loop]. unfold bind, ret.
      rewrite (option_case_return_any strtol _ _ _ _ _ _ _ Hone l w). reflexivity.
    - apply accepted_cons in Hpre. destruct Hpre as [H1 H2].
      destruct (H1 l w) as [l1 E1]. cbn [getopt_loop] in E1. unfold bind in E1.
      cbn [app getopt_loop]. unfold bind.
      destruct (option_case strtol Tunes_default c' a' l w) as [[l2|code2] w2] eqn:E;
        [| unfold ret in E1; discriminate E1].
      unfold ret in E1. inversion E1; subst. apply (IH H2). }
  rewrite Hloop. unfold ret. rewrite Hcode. reflexivity.
Qed.

(** What the part after the loop returns. *)
Lemma run_command_cases (tunes : Tunes) (l : locals) (ops : list string) (w : World) :
  (exists cmd rest, ops = cmd :: rest /\ command_word cmd /\
                    fst (run_command tunes l ops w) = 0) \/
  ((forall cmd rest, ops = cmd :: rest -> ~ command_word cmd) /\
   run_command tunes l ops w = (1, after_usage w)).
Proof.
  destruct ops as [|cmd rest].
  - right. split; [intros cmd rest H; discriminate H | reflexivity].
  - unfold run_command.
    destruct (String.eqb_spec cmd "play") as [->|Hp].
    { left. exists "play", rest. split; [reflexivity|]. split; [left; reflexivity|].
      destruct (string_input l); unfold bind; cbn;
        repeat match goal with
               | |- context [let (_, _) := ?x in _] => destruct x
               end; reflexivity. }
    destruct (String.eqb_spec cmd "libtest") as [->|Hl].
    { left. exists "libtest", rest. split; [reflexivity|].
      split; [right; left; reflexivity|].
      destruct (set_control (tune_control l) tunes) as [r t].
      unfold bind; cbn;
        repeat match goal with
               | |- context [let (_, _) := ?x in _] => destruct x
               end; reflexivity. }
    destruct (String.eqb_spec cmd "stop") as [->|Hs].
    { left. exists "stop", rest. split; [reflexivity|].
      split; [right; right; reflexivity|].
      unfold bind; cbn;
        repeat match goal with
               | |- context [let (_, _) := ?x in _] => destruct x
               end; reflexivity. }
    right. split; [| reflexivity].
    intros cmd' rest' Heq [H|[H|H]]; inversion Heq; subst; congruence.
Qed.

(** X3.  The command returns 0, 1 or -1.  When it returns 1 or -1 its only
    effect is the usage text: nothing is published, none of [set_string],
    [set_control] and [get_next_tune] is called, and the clock and the
    topic handle are as they were.  (The test of a [-t] option reads the
    table size with [get_default_tunes_size] also on such a run.) *)
Theorem X3_failure_has_no_effect_but_usage (cl : command_line) (w : World) :
  let (code, w') := tune_control_main strtol cl w in
  (code = 0 \/ code = 1 \/ code = -1) /\
  (code <> 0 ->
   w' = after_usage w /\
   trace w' = trace w ++ [Usage] /\
   published (trace w') = published (trace w) /\
   hrt_now w' = hrt_now w /\
   tune_control_pub w' = tune_control_pub w).
Proof.
  destruct (tune_control_main strtol cl w) as [code w'] eqn:E.
  assert (Hfail : w' = after_usage w ->
                  w' = after_usage w /\
                  trace w' = trace w ++ [Usage] /\
                  published (trace w') = published (trace w) /\
                  hrt_now w' = hrt_now w /\
                  tune_control_pub w' = tune_control_pub w).
  { intros ->. repeat split. apply after_usage_published. }
  unfold tune_control_main, bind in E.
  destruct (getopt_loop_cases strtol Tunes_default (options cl) locals_init w)
    as [[l El]|[c [El Hc]]]; rewrite El in E.
  - destruct (run_command_cases Tunes_default l (operands cl) w)
      as [(cmd & rest & _ & _ & H0)|[_ H1]].
    + rewrite E in H0. cbn in H0. subst code.
      split; [left; reflexivity | intros H; exfalso; apply H; reflexivity].
    + rewrite E in H1. inversion H1; subst.
      split; [right; left; reflexivity | intros _; apply Hfail; reflexivity].
  - unfold ret in E. inversion E; subst.
    split; [right; exact Hc | intros _; apply Hfail; reflexivity].
Qed.

(** X4.  The command returns 0 exactly when every option is accepted and
    the first operand is one of the words play, libtest and stop.  With
    accepted options and no operand, or another word, it prints the usage
    text and returns 1. *)
Theorem X4_success_needs_options_and_command_word (cl : command_line) (w : World) :
  (fst (tune_control_main strtol cl w) = 0 <->
   accepted strtol (options cl) /\
   exists cmd rest, operands cl = cmd :: rest /\ command_word cmd) /\
  (accepted strtol (options cl) ->
   (forall cmd rest, operands cl = cmd :: rest -> ~ command_word cmd) ->
   tune_control_main strtol cl w = (1, after_usage w)).
Proof.
  split.
  - split.
    + intros H0. unfold tune_control_main, bind in H0.
      destruct (getopt_loop_cases strtol Tunes_default (options cl) locals_init w)
        as [[l El]|[c [El Hc]]]; rewrite El in H0.
      * split; [exact (accepted_of_run _ _ _ _ _ El)|].
        destruct (run_command_cases Tunes_default l (operands cl) w)
          as [(cmd & rest & Hops & Hw & _)|[_ H1]].
        -- exists cmd, rest. split; assumption.
        -- rewrite H1 in H0. discriminate H0.
      * cbn in H0. destruct Hc as [Hc|Hc]; rewrite Hc in H0; discriminate H0.
    + intros [Hacc (cmd & rest & Hops & Hw)].
      destruct (Hacc locals_init w) as [l El].
      unfold tune_control_main, bind. rewrite El.
      destruct (run_command_cases Tunes_default l (operands cl) w)
        as [(cmd' & rest' & _ & _ & H0)|[Hno _]]; [exact H0|].
      exfalso. exact (Hno cmd rest Hops Hw).
  - intros Hacc Hno.
    destruct (Hacc locals_init w) as [l El].
    unfold tune_control_main, bind. rewrite El.
    destruct (run_command_cases Tunes_default l (operands cl) w)
      as [(cmd & rest & Hops & Hw & _)|[_ H1]]; [| exact H1].
    exfalso. exact (Hno cmd rest Hops Hw).
Qed.

End Acceptance.

(** ** What the options leave in the message *)

Section OptionValues.

Context {Tunes : Type} {tunes_api : TunesAPI Tunes}.
Variable strtol : string -> Z.

(** What one accepted option writes: its own field, and nothing else. *)
Lemma option_case_fields (tunes : Tunes) (ch : ascii) (arg : string)
  (l l' : locals) (w w' : World) :
  option_case strtol tunes ch arg l w = (Continue l', w') ->
  frequency (tune_control l') =
    (if Ascii.eqb ch "f" then uint16_t (strtol arg) else frequency (tune_control l)) /\
  duration (tune_control l') =
    (if Ascii.eqb ch "d" then uint32_t (strtol arg) else duration (tune_control l)) /\
  tune_id (tune_control l') =
    (if Ascii.eqb ch "t" then uint8_t (strtol arg) else tune_id (tune_control l)) /\
  strength (tune_control l') =
    (if Ascii.eqb ch "s" then strength_of strtol arg else strength (tune_control l)) /\
  string_input l' = (if Ascii.eqb ch "m" then true else string_input l) /\
  tune_string l' = (if Ascii.eqb ch "m" then Some arg else tune_string l) /\
  silence (tune_control l') = silence (tune_control l) /\
  tune_override (tune_control l') = tune_override (tune_control l) /\
  timestamp (tune_control l') = timestamp (tune_control l).
Proof.
  intros H. unfold option_case, strength_of in *.
  destruct (Ascii.eqb_spec ch "f") as [->|Hf];
    [| destruct (Ascii.eqb_spec ch "d") as [->|Hd];
       [| destruct (Ascii.eqb_spec ch "t") as [->|Ht];
          [| destruct (Ascii.eqb_spec ch "m") as [->|Hm];
             [| destruct (Ascii.eqb_spec ch "s") as [->|Hs]]]]];
    cbn [Ascii.eqb Bool.eqb] in *;
    repeat match type of H with
           | context [if ?b then _ else _] => destruct b eqn:?
           end;
    unfold bind, usage, emit, ret in H; try discriminate H;
    inversion H; subst; cbn; repeat split; reflexivity.
Qed.

(** After an accepted loop a field holds what the last option that writes
    it has written, and what it held before when there is none. *)
Lemma getopt_loop_option_value {A : Type} (proj : locals -> A) (ch : ascii)
  (value : string -> A) (tunes : Tunes) :
  (forall c arg l l' w w',
      option_case strtol tunes c arg l w = (Continue l', w') ->
      proj l' = if Ascii.eqb c ch then value arg else proj l) ->
  forall (opts : list (ascii * string)) (l l' : locals) (w w' : World),
    getopt_loop strtol tunes opts l w = (Continue l', w') ->
    proj l' = option_value ch value (proj l) opts.
Proof.
  intros Hstep opts. induction opts as [|[c a] opts IH]; intros l l' w w' H.
  - cbn in H. unfold ret in H. inversion H. reflexivity.
  - cbn [getopt_loop] in H. unfold bind in H.
    destruct (option_case strtol tunes c a l w) as [[l1|code] w1] eqn:E;
      [| unfold ret in H; discriminate H].
    rewrite (IH l1 l' w1 w' H). unfold option_value. cbn [last_option].
    destruct (last_option ch opts); [reflexivity|].
    rewrite (Hstep c a l l1 w w1 E).
    destruct (Ascii.eqb c ch); reflexivity.
Qed.

Lemma last_option_in (ch : ascii) (opts : list (ascii * string)) (arg : string) :
  last_option ch opts = Some arg -> In (ch, arg) opts.
Proof.
  induction opts as [|[c a] opts IH]; intros H; [discriminate H|].
  cbn in H. destruct (last_option ch opts) as [x|].
  - right. apply IH. exact H.
  - destruct (Ascii.eqb_spec c ch) as [->|]; [| discriminate H].
    inversion H. left. reflexivity.
Qed.

(** The locals after an accepted loop that started from the initial
    locals, field by field. *)
Lemma getopt_loop_fields (opts : list (ascii * string)) (l : locals) (w w' : World) :
  getopt_loop strtol Tunes_default opts locals_init w = (Continue l, w') ->
  frequency (tune_control l)
    = option_value "f" (fun a => uint16_t (strtol a)) 0 opts /\
  duration (tune_control l)
    = option_value "d" (fun a => uint32_t (strtol a)) 0 opts /\
  tune_id (tune_control l)
    = option_value "t" (fun a => uint8_t (strtol a)) 0 opts /\
  strength (tune_control l)
    = option_value "s" (strength_of strtol) STRENGTH_NORMAL opts /\
  string_input l = option_value "m" (fun _ => true) false opts /\
  tune_string l = option_value "m" Some None opts /\
  silence (tune_control l) = 0 /\
  tune_override (tune_control l) = false /\
  timestamp (tune_control l) = 0.
Proof.
  intros H.
  assert (Hstep : forall c arg l0 l1 w0 w1,
             option_case strtol Tunes_default c arg l0 w0 = (Continue l1, w1) -> _)
    by (intros c arg l0 l1 w0 w1 E; exact (option_case_fields _ _ _ _ _ _ _ E)).
  repeat split.
  - exact (getopt_loop_option_value (fun l => frequency (tune_control l)) "f"
             (fun a => uint16_t (strtol a)) Tunes_default
             (fun c arg l0 l1 w0 w1 E => proj1 (Hstep c arg l0 l1 w0 w1 E))
             opts locals_init l w w' H).
  - exact (getopt_loop_option_value (fun l => duration (tune_control l)) "d"
             (fun a => uint32_t (strtol a)) Tunes_default
             (fun c arg l0 l1 w0 w1 E => proj1 (proj2 (Hstep c arg l0 l1 w0 w1 E)))
             opts locals_init l w w' H).
  - exact (getopt_loop_option_value (fun l => tune_id (tune_control l)) "t"
             (fun a => uint8_t (strtol a)) Tunes_default
             (fun c arg l0 l1 w0 w1 E =>
                proj1 (proj2 (proj2 (Hstep c arg l0 l1 w0 w1 E))))
             opts locals_init l w w' H).
  - exact (getopt_loop_option_value (fun l => strength (tune_control l)) "s"
             (strength_of strtol) Tunes_default
             (fun c arg l0 l1 w0 w1 E =>
                proj1 (proj2 (proj2 (proj2 (Hstep c arg l0 l1 w0 w1 E)))))
             opts locals_init l w w' H).
  - exact (getopt_loop_option_value string_input "m" (fun _ => true) Tunes_default
             (fun c arg l0 l1 w0 w1 E =>
                proj1 (proj2 (proj2 (proj2 (proj2 (Hstep c arg l0 l1 w0 w1 E))))))
             opts locals_init l w w' H).
  - exact (getopt_loop_option_value tune_string "m" Some Tunes_default
             (fun c arg l0 l1 w0 w1 E =>
                proj1 (proj2 (proj2 (proj2 (proj2 (proj2
                  (Hstep c arg l0 l1 w0 w1 E)))))))
             opts locals_init l w w' H).
  - exact (getopt_loop_preserves strtol (fun l => silence (tune_control l))
             (fun _ => false) Tunes_default
             (fun c arg l0 l1 w0 w1 _ E =>
                proj1 (proj2 (proj2 (proj2 (proj2 (proj2 (proj2
                  (Hstep c arg l0 l1 w0 w1 E))))))))
             opts (fun _ _ _ => eq_refl) locals_init l w w' H).
  - exact (getopt_loop_preserves strtol (fun l => tune_override (tune_control l))
             (fun _ => false) Tunes_default
             (fun c arg l0 l1 w0 w1 _ E =>
                proj1 (proj2 (proj2 (proj2 (proj2 (proj2 (proj2 (proj2
                  (Hstep c arg l0 l1 w0 w1 E)))))))))
             opts (fun _ _ _ => eq_refl) locals_init l w w' H).
  - exact (getopt_loop_preserves strtol (fun l => timestamp (tune_control l))
             (fun _ => false) Tunes_default
             (fun c arg l0 l1 w0 w1 _ E =>
                proj2 (proj2 (proj2 (proj2 (proj2 (proj2 (proj2 (proj2
                  (Hstep c arg l0 l1 w0 w1 E)))))))))
             opts (fun _ _ _ => eq_refl) locals_init l w w' H).
Qed.

(** The argument of an option on an accepted command line has passed the
    test of its option. *)
Lemma accepted_f (arg : string) :
  accepted strtol [("f"%char, arg)] -> 0 < uint16_t (strtol arg) < 22000.
Proof.
  intros H. destruct (H locals_init boot_world) as [l E].
  cbn [getopt_loop] in E. unfold bind in E. rewrite option_case_f in E.
  destruct ((uint16_t (strtol arg) >? 0) && (uint16_t (strtol arg) <? 22000)) eqn:Hr.
  - apply range_test_true. exact Hr.
  - unfold ret in E. discriminate E.
Qed.

Lemma accepted_t (arg : string) :
  accepted strtol [("t"%char, arg)] ->
  0 < uint8_t (strtol arg) < get_default_tunes_size Tunes_default.
Proof.
  intros H. destruct (H locals_init boot_world) as [l E].
  cbn [getopt_loop] in E. unfold bind in E. rewrite option_case_t in E.
  destruct ((uint8_t (strtol arg) >? 0)
            && (uint8_t (strtol arg) <? get_default_tunes_size Tunes_default)) eqn:Hr.
  - apply range_test_true. exact Hr.
  - unfold ret in E. discriminate E.
Qed.

Lemma accepted_m (arg : string) :
  accepted strtol [("m"%char, arg)] -> first_char_is_M arg = true.
Proof.
  intros H. destruct (H locals_init boot_world) as [l E].
  cbn [getopt_loop] in E. unfold bind in E. rewrite option_case_m in E.
  destruct (first_char_is_M arg); [reflexivity | unfold ret in E; discriminate E].
Qed.

Lemma strength_of_range (arg : string) : 0 < strength_of strtol arg < 100.
Proof.
  unfold strength_of.
  destruct ((uint8_t (strtol arg) >? 0) && (uint8_t (strtol arg) <? 100)) eqn:Hr.
  - apply range_test_true. exact Hr.
  - unfold STRENGTH_NORMAL. lia.
Qed.

Lemma absent_last_option (ch : ascii) (opts : list (ascii * string)) :
  absent ch opts -> last_option ch opts = None.
Proof.
  intros Habs. destruct (last_option ch opts) as [a|] eqn:E; [| reflexivity].
  exfalso. exact (Habs a (last_option_in _ _ _ E)).
Qed.

(** X5.  [play] on an accepted command line without [-m] publishes one
    message and returns 0.  Each field of the message is set by the last
    option that names it, whatever the order of the options: the tune id
    by the last [-t] (1 when there is none), the frequency by the last
    [-f] (0 when there is none), the duration by the last [-d], reduced
    modulo 2^32 (0 when there is none), the strength by the last [-s] (40
    when there is none).  The silence is 0, the override flag is not set,
    and the time stamp is the clock at the start of the command. *)
Theorem X5_play_message_is_set_by_last_options (cl : command_line)
  (rest : list string) (w : World) :
  accepted strtol (options cl) ->
  absent "m" (options cl) ->
  operands cl = "play" :: rest ->
  exists w',
    tune_control_main strtol cl w = (0, w') /\
    published (trace w') = published (trace w) ++
      [mk_tune_control
         (hrt_now w)
         (option_value "t" (fun a => uint8_t (strtol a)) 1 (options cl))
         false
         (option_value "f" (fun a => uint16_t (strtol a)) 0 (options cl))
         (option_value "d" (fun a => strtol a mod 2 ^ 32) 0 (options cl))
         0
         (option_value "s" (strength_of strtol) 40 (options cl))].
Proof.
  intros Hacc Hm Hops.
  destruct (Hacc locals_init w) as [l El].
  rewrite (tune_control_main_accepted strtol cl l w w El), Hops.
  destruct (getopt_loop_fields _ _ _ _ El)
    as (Hf & Hd & Ht & Hs & Hsi & _ & Hsil & Hov & Hts).
  unfold option_value in Hsi. rewrite (absent_last_option _ _ Hm) in Hsi.
  destruct (run_command_play_single Tunes_default l rest w Hsi) as (w' & Hrun & Htr).
  exists w'. split; [exact Hrun|].
  rewrite Htr. unfold published. rewrite sink_view_app.
  unfold messages at 1. rewrite flat_map_app. f_equal.
  assert (Em : single_message l w =
               mk_tune_control (hrt_now w)
                 (option_value "t" (fun a => uint8_t (strtol a)) 1 (options cl))
                 false
                 (option_value "f" (fun a => uint16_t (strtol a)) 0 (options cl))
                 (option_value "d" (fun a => strtol a mod 2 ^ 32) 0 (options cl))
                 0
                 (option_value "s" (strength_of strtol) 40 (options cl))).
  { unfold single_message.
    assert (Hid : tune_id (if tune_id (tune_control l) =? 0
                           then set_tune_id 1 (tune_control l) else tune_control l)
                  = option_value "t" (fun a => uint8_t (strtol a)) 1 (options cl)).
    { rewrite Ht. unfold option_value.
      destruct (last_option "t" (options cl)) as [a|] eqn:El'; [| reflexivity].
      pose proof (accepted_t a (proj1 (accepted_forall strtol _) Hacc _ _
                                  (last_option_in _ _ _ El'))) as Hr.
      assert (Hnz : (uint8_t (strtol a) =? 0) = false) by (apply Z.eqb_neq; lia).
      rewrite Hnz. rewrite Ht. unfold option_value. rewrite El'. reflexivity. }
    destruct (tune_control l) as [ts id ov fr du si st].
    cbn [timestamp tune_id tune_override frequency duration silence strength]
      in Hf, Hd, Ht, Hs, Hsil, Hov, Hts, Hid |- *.
    unfold uint32_t, wrap in Hd. unfold STRENGTH_NORMAL in Hs.
    subst si ov.
    destruct (id =? 0); cbn [tune_id set_tune_id] in Hid;
      rewrite <- Hf, <- Hd, <- Hs, <- Hid; reflexivity. }
  unfold publication. destruct (tune_control_pub w); cbn; rewrite Em; reflexivity.
Qed.

(** X6.  Every message that [stop], or [play] without [-m], publishes on
    an accepted command line has a frequency below 22000, a strength
    strictly between 0 and 100, a tune id and a duration that fit their 8
    and 32 bits, and no silence. *)
Theorem X6_published_fields_are_in_range (cl : command_line)
  (cmd : string) (rest : list string) (w : World) :
  accepted strtol (options cl) ->
  operands cl = cmd :: rest ->
  cmd = "stop" \/ (cmd = "play" /\ absent "m" (options cl)) ->
  exists w' m,
    tune_control_main strtol cl w = (0, w') /\
    published (trace w') = published (trace w) ++ [m] /\
    0 <= frequency m < 22000 /\
    0 < strength m < 100 /\
    0 <= tune_id m < 256 /\
    0 <= duration m < 2 ^ 32 /\
    silence m = 0.
Proof.
  intros Hacc Hops Hcmd.
  destruct (Hacc locals_init w) as [l El].
  destruct (getopt_loop_fields _ _ _ _ El)
    as (Hf & Hd & Ht & Hs & Hsi & _ & Hsil & Hov & Hts).
  assert (Rf : 0 <= frequency (tune_control l) < 22000).
  { rewrite Hf. unfold option_value.
    destruct (last_option "f" (options cl)) as [a|] eqn:E; [| lia].
    pose proof (accepted_f a (proj1 (accepted_forall strtol _) Hacc _ _
                                (last_option_in _ _ _ E))). lia. }
  assert (Rs : 0 < strength (tune_control l) < 100).
  { rewrite Hs. unfold option_value.
    destruct (last_option "s" (options cl)) as [a|];
      [apply strength_of_range | unfold STRENGTH_NORMAL; lia]. }
  assert (Rt : 0 <= tune_id (tune_control l) < 256).
  { rewrite Ht. unfold option_value.
    destruct (last_option "t" (options cl)) as [a|]; [| lia].
    apply (wrap_range 8). lia. }
  assert (Rd : 0 <= duration (tune_control l) < 2 ^ 32).
  { rewrite Hd. unfold option_value.
    destruct (last_option "d" (options cl)) as [a|]; [| lia].
    apply (wrap_range 32). lia. }
  rewrite (tune_control_main_accepted strtol cl l w w El), Hops.
  destruct Hcmd as [->|[-> Hm]].
  - destruct (run_command_stop Tunes_default l rest w) as (w' & Hrun & Htr).
    exists w', (stop_message l w). split; [exact Hrun|].
    split.
    { rewrite Htr. unfold published. rewrite sink_view_app.
      unfold messages at 1. rewrite flat_map_app. f_equal.
      unfold publication. destruct (tune_control_pub w); reflexivity. }
    cbn. repeat split; lia.
  - unfold option_value in Hsi. rewrite (absent_last_option _ _ Hm) in Hsi.
    destruct (run_command_play_single Tunes_default l rest w Hsi) as (w' & Hrun & Htr).
    exists w', (single_message l w). split; [exact Hrun|].
    split.
    { rewrite Htr. unfold published. rewrite sink_view_app.
      unfold messages at 1. rewrite flat_map_app. f_equal.
      unfold publication. destruct (tune_control_pub w); reflexivity. }
    unfold single_message.
    destruct (tune_id (tune_control l) =? 0); cbn; repeat split; lia.
Qed.

(** X13.  [stop] on an accepted command line publishes the same message
    whatever [-f], [-d], [-t] and [-m] options it was given: all fields
    are fixed but the time stamp, which is the clock at the start of the
    command, and the strength, which is the one selected by the last [-s]
    (40 when there is none). *)
Theorem X13_stop_ignores_all_options_but_strength (cl : command_line)
  (rest : list string) (w : World) :
  accepted strtol (options cl) ->
  operands cl = "stop" :: rest ->
  exists w',
    tune_control_main strtol cl w = (0, w') /\
    published (trace w') = published (trace w) ++
      [mk_tune_control (hrt_now w) 0 true 0 0 0
         (option_value "s" (strength_of strtol) 40 (options cl))].
Proof.
  intros Hacc Hops.
  destruct (Hacc locals_init w) as [l El].
  destruct (getopt_loop_fields _ _ _ _ El) as (_ & _ & _ & Hs & _).
  rewrite (tune_control_main_accepted strtol cl l w w El), Hops.
  destruct (run_command_stop Tunes_default l rest w) as (w' & Hrun & Htr).
  exists w'. split; [exact Hrun|].
  rewrite Htr. unfold published. rewrite sink_view_app.
  unfold messages at 1. rewrite flat_map_app. f_equal.
  unfold stop_message. rewrite Hs. change STRENGTH_NORMAL with 40.
  unfold publication. destruct (tune_control_pub w); reflexivity.
Qed.

End OptionValues.

(** ** The topic handle *)

Lemma published_app (tr1 tr2 : list effect) :
  published (tr1 ++ tr2) = published tr1 ++ published tr2.
Proof. unfold published, messages. rewrite sink_view_app. apply flat_map_app. Qed.

Lemma publications_app (tr1 tr2 : list effect) :
  publications (tr1 ++ tr2) = publications tr1 ++ publications tr2.
Proof. apply filter_app. Qed.

Lemma handle_after_app (pub : option orb_advert_t) (a b : list tune_control_s) :
  handle_after pub (a ++ b) = handle_after (handle_after pub a) b.
Proof. destruct a, b, pub; reflexivity. Qed.

Lemma publications_of_app (pub : option orb_advert_t) (a b : list tune_control_s) :
  publications_of pub (a ++ b) =
  publications_of pub a ++ publications_of (handle_after pub a) b.
Proof.
  revert pub. induction a as [|m a IH]; intros pub; [reflexivity|].
  cbn [app publications_of]. rewrite IH. f_equal. f_equal.
  destruct a; destruct pub; reflexivity.
Qed.

Lemma handle_rule_refl (pub : option orb_advert_t) : handle_rule pub [] pub.
Proof. split; reflexivity. Qed.

Lemma handle_rule_app (p p1 p2 : option orb_advert_t) (n1 n2 : list effect) :
  handle_rule p n1 p1 -> handle_rule p1 n2 p2 -> handle_rule p (n1 ++ n2) p2.
Proof.
  intros [H1 E1] [H2 E2]. subst p1 p2. split.
  - rewrite publications_app, published_app, publications_of_app, H1, H2.
    reflexivity.
  - rewrite published_app, handle_after_app. reflexivity.
Qed.

(** An effect that is no publication leaves the handle alone. *)
Lemma handle_rule_quiet (pub : option orb_advert_t) (e : effect) :
  sink_actions e = [] \/ (exists us, e = Usleep us) ->
  handle_rule pub [e] pub.
Proof.
  intros [H|[us ->]]; [| split; reflexivity].
  destruct e; cbn in H; try discriminate H; split; reflexivity.
Qed.

Lemma handle_rule_publication (w : World) (m : tune_control_s) :
  handle_rule (tune_control_pub w) [publication w m]
    (Some match tune_control_pub w with
          | Some h => h
          | None => tune_control_advert
          end).
Proof. unfold publication. destruct (tune_control_pub w); split; reflexivity. Qed.

(** What the handle rule says about advertising. *)
Lemma publications_of_advertises (pub : option orb_advert_t)
  (msgs : list tune_control_s) :
  advertises (publications_of pub msgs) =
    match pub, msgs with
    | None, _ :: _ => 1%nat
    | _, _ => 0%nat
    end /\
  queue_sizes (publications_of pub msgs) =
    match pub, msgs with
    | None, _ :: _ => [3]
    | _, _ => []
    end.
Proof.
  assert (Hsome : forall h ms,
             advertises (publications_of (Some h) ms) = 0%nat /\
             queue_sizes (publications_of (Some h) ms) = []).
  { intros h ms. induction ms as [|m ms IH]; [split; reflexivity|]. exact IH. }
  destruct msgs as [|m msgs]; [destruct pub; split; reflexivity|].
  destruct pub as [h|]; [apply Hsome|].
  cbn [publications_of handle_after].
  destruct (Hsome tune_control_advert msgs) as [Ha Hq].
  unfold advertises, queue_sizes in *. cbn. rewrite Ha, Hq. split; reflexivity.
Qed.

Lemma advertises_publications (tr : list effect) :
  advertises (publications tr) = advertises tr /\
  queue_sizes (publications tr) = queue_sizes tr.
Proof.
  unfold advertises, queue_sizes, publications.
  induction tr as [|e tr [IH1 IH2]]; [split; reflexivity|].
  destruct e; cbn; try (split; assumption).
  all: rewrite ?IH1, ?IH2; split; reflexivity.
Qed.

Section Handle.

Context {Tunes : Type} {tunes_api : TunesAPI Tunes}.
Variable strtol : string -> Z.

Lemma grows_refl (w : World) : grows w w.
Proof. exists []. split; [symmetry; apply app_nil_r | apply handle_rule_refl]. Qed.

Lemma grows_trans (w1 w2 w3 : World) : grows w1 w2 -> grows w2 w3 -> grows w1 w3.
Proof.
  intros (n1 & T1 & H1) (n2 & T2 & H2). exists (n1 ++ n2). split.
  - rewrite T2, T1, app_assoc. reflexivity.
  - exact (handle_rule_app _ _ _ _ _ H1 H2).
Qed.

Lemma grows_emit (e : effect) (w : World) :
  sink_actions e = [] -> grows w (snd (emit e w)).
Proof.
  intros H. exists [e]. split; [reflexivity|].
  apply handle_rule_quiet. left. exact H.
Qed.

Lemma grows_usleep (us : Z) (w : World) : grows w (snd (usleep us w)).
Proof.
  exists [Usleep us]. split; [reflexivity|].
  apply handle_rule_quiet. right. exists us. reflexivity.
Qed.

Lemma grows_publish (m : tune_control_s) (w : World) :
  grows w (snd (publish_tune_control m w)).
Proof.
  rewrite publish_tune_control_eq. cbn [snd].
  exists [publication w (set_timestamp (hrt_now w) m)].
  split; [reflexivity | apply handle_rule_publication].
Qed.

Lemma grows_play_round (n : next_tune) (tc : tune_control_s) (w : World) :
  grows w (snd ((emit CallGetNextTune ;;; play_round n tc)%tune w)).
Proof.
  unfold play_round, bind. unfold emit at 1.
  match goal with
  | |- context [publish_tune_control ?m ?w0] =>
      pose proof (grows_publish m w0) as Hp;
      destruct (publish_tune_control m w0) as [tc1 w1] eqn:E
  end.
  cbn [snd] in *. unfold ret.
  apply (grows_trans _ _ _ (grows_emit CallGetNextTune w eq_refl)).
  apply (grows_trans _ _ _ Hp). apply grows_usleep.
Qed.

Lemma grows_play_loop (k : nat) :
  forall (exit_counter : Z), rounds_left exit_counter = S k ->
  forall (tunes : Tunes) (tc : tune_control_s) (w : World),
    grows w (play_loop exit_counter tunes tc w).
Proof.
  induction k as [|k IH]; intros ec Hec tunes tc w;
    rewrite play_loop_unfold_if;
    destruct (get_next_tune tunes) as [[r n] tunes'];
    destruct (r >? 0);
    try (apply (grows_emit CallGetNextTune w eq_refl)).
  - pose proof (grows_play_round n tc w) as Hr.
    destruct ((emit CallGetNextTune ;;; play_round n tc)%tune w) as [tc' w'].
    destruct (ec + 1 >? MAX_NOTE_ITERATION) eqn:Ec; [exact Hr|].
    exfalso. rewrite Z.gtb_ltb in Ec. apply Z.ltb_ge in Ec.
    unfold rounds_left, MAX_NOTE_ITERATION in *. lia.
  - pose proof (grows_play_round n tc w) as Hr.
    destruct ((emit CallGetNextTune ;;; play_round n tc)%tune w) as [tc' w'].
    destruct (ec + 1 >? MAX_NOTE_ITERATION) eqn:Ec; [exact Hr|].
    apply (grows_trans _ _ _ Hr). apply IH.
    rewrite Z.gtb_ltb in Ec. apply Z.ltb_ge in Ec.
    unfold rounds_left, MAX_NOTE_ITERATION in *. lia.
Qed.

End Handle.

(** ** The two loops, effect by effect *)

Section Loops.

Context {Tunes : Type} {tunes_api : TunesAPI Tunes}.

Lemma libtest_loop_unfold_if (exit_counter : Z) (tunes : Tunes) (w : World) :
  libtest_loop exit_counter tunes w =
  let '(r, n, tunes') := get_next_tune tunes in
  if r >? 0 then
    let w' := snd ((emit CallGetNextTune ;;;
                    emit (libtest_line n) ;;;
                    usleep 500000)%tune w) in
    if exit_counter + 1 >? MAX_NOTE_ITERATION then w'
    else libtest_loop (exit_counter + 1) tunes' w'
  else snd (emit CallGetNextTune w).
Proof.
  unfold libtest_loop at 1. rewrite FixWf_unfold.
  - cbn [pr1 pr2]. unfold libtest_loop_functional, libtest_loop_clause_1.
    destruct (get_next_tune tunes) as [[r n] tunes'].
    unfold libtest_loop_clause_1_clause_1.
    destruct (Z_gt_dec r 0) as [Hr|Hr].
    + assert (Er : (r >? 0) = true) by (apply Z.gtb_lt; lia). rewrite Er.
      unfold libtest_loop_clause_1_clause_1_clause_2.
      unfold libtest_line, PX4_INFO.
      destruct ((emit CallGetNextTune ;;;
                 emit (Info "frequency: %d, duration %d, silence %d, strength%d"
                         [nt_frequency n; nt_duration n; nt_silence n; nt_strength n]) ;;;
                 usleep 500000)%tune w) as [u w'].
      unfold libtest_loop_clause_1_clause_1_clause_2_clause_1. cbn [snd].
      destruct (Z_gt_dec (exit_counter + 1) MAX_NOTE_ITERATION) as [Hc|Hc].
      * assert (Ec : (exit_counter + 1 >? MAX_NOTE_ITERATION) = true)
          by (apply Z.gtb_lt; lia).
        rewrite Ec. reflexivity.
      * assert (Ec : (exit_counter + 1 >? MAX_NOTE_ITERATION) = false).
        { rewrite Z.gtb_ltb. apply Z.ltb_ge. lia. }
        rewrite Ec. reflexivity.
    + assert (Er : (r >? 0) = false).
      { rewrite Z.gtb_ltb. apply Z.ltb_ge. lia. }
      rewrite Er. reflexivity.
  - intros [ec [t w0]] f g Hfg. cbn [pr1 pr2].
    unfold libtest_loop_functional, libtest_loop_clause_1.
    destruct (get_next_tune t) as [[r n] t'].
    unfold libtest_loop_clause_1_clause_1.
    destruct (Z_gt_dec r 0) as [Hr|Hr]; [| reflexivity].
    unfold libtest_loop_clause_1_clause_1_clause_2.
    match goal with
    | |- context [(?m)%tune w0] => destruct (m w0) as [u w']
    end.
    unfold libtest_loop_clause_1_clause_1_clause_2_clause_1.
    destruct (Z_gt_dec (ec + 1) MAX_NOTE_ITERATION) as [Hc|Hc]; [reflexivity|].
    apply Hfg.
Qed.

(** The [libtest] loop, exactly. *)
Lemma libtest_loop_exact (k : nat) :
  forall (exit_counter : Z), rounds_left exit_counter = S k ->
  forall (tunes : Tunes) (w : World),
    libtest_loop exit_counter tunes w =
    mk_World
      (hrt_now w + 500000 * Z.of_nat (List.length (take_notes (S k) tunes)))
      (tune_control_pub w)
      (trace w ++ flat_map libtest_round (take_notes (S k) tunes)
               ++ last_call (S k) (List.length (take_notes (S k) tunes))).
Proof.
  induction k as [|k IH]; intros ec Hec tunes w;
    rewrite libtest_loop_unfold_if; cbn [take_notes];
    destruct (get_next_tune tunes) as [[r n] tunes'];
    destruct (r >? 0).
  - assert (Ec : (ec + 1 >? MAX_NOTE_ITERATION) = true).
    { apply Z.gtb_lt. unfold rounds_left, MAX_NOTE_ITERATION in *. lia. }
    rewrite Ec. unfold bind, emit, usleep, libtest_round, last_call.
    cbn [snd hrt_now tune_control_pub trace flat_map List.length app Nat.ltb Nat.leb].
    rewrite <- !app_assoc. reflexivity.
  - unfold emit, last_call. cbn [snd List.length flat_map app Nat.ltb Nat.leb].
    cbn [Z.of_nat]. rewrite Z.mul_0_r, Z.add_0_r. reflexivity.
  - assert (Ec : (ec + 1 >? MAX_NOTE_ITERATION) = false).
    { rewrite Z.gtb_ltb. apply Z.ltb_ge.
      unfold rounds_left, MAX_NOTE_ITERATION in *. lia. }
    rewrite Ec.
    assert (Hec' : rounds_left (ec + 1) = S k).
    { unfold rounds_left, MAX_NOTE_ITERATION in *. lia. }
    rewrite (IH (ec + 1) Hec').
    unfold bind, emit, usleep, libtest_round, last_call.
    cbn [snd hrt_now tune_control_pub trace flat_map List.length app].
    change (S (List.length (take_notes (S k) tunes')) <? S (S k))%nat
      with (List.length (take_notes (S k) tunes') <? S k)%nat.
    replace (hrt_now w + 500000
             + 500000 * Z.of_nat (List.length (take_notes (S k) tunes')))
      with (hrt_now w
            + 500000 * Z.of_nat (S (List.length (take_notes (S k) tunes'))))
      by lia.
    rewrite <- !app_assoc. reflexivity.
  - unfold emit, last_call. cbn [snd List.length flat_map app Nat.ltb Nat.leb].
    cbn [Z.of_nat]. rewrite Z.mul_0_r, Z.add_0_r. reflexivity.
Qed.

Lemma take_notes_length (k : nat) (tunes : Tunes) :
  (List.length (take_notes k tunes) <= k)%nat.
Proof.
  revert tunes. induction k as [|k IH]; intros tunes; cbn [take_notes]; [apply Nat.le_refl|].
  destruct (get_next_tune tunes) as [[r n] tunes'].
  destruct (r >? 0); simpl List.length; [| apply Nat.le_0_l].
  apply le_n_S. apply IH.
Qed.

(** The playback loop: what it appends has only calls of
    [get_next_tune], publications and sleeps, and the number of calls. *)
Lemma play_loop_calls (k : nat) :
  forall (exit_counter : Z), rounds_left exit_counter = S k ->
  forall (tunes : Tunes) (tc : tune_control_s) (w : World),
  exists new,
    trace (play_loop exit_counter tunes tc w) = trace w ++ new /\
    forallb loop_effect new = true /\
    get_next_tune_calls new =
      (List.length (take_notes (S k) tunes)
       + List.length (last_call (S k) (List.length (take_notes (S k) tunes))))%nat.
Proof.
  assert (Hround : forall n tc w,
             exists tc' w',
               (emit CallGetNextTune ;;; play_round n tc)%tune w = (tc', w') /\
               exists e1 e2, trace w' = trace w ++ [CallGetNextTune; e1; e2] /\
                             loop_effect e1 = true /\ loop_effect e2 = true /\
                             get_next_tune_calls [e1; e2] = 0%nat).
  { intros n tc w. unfold play_round, bind. unfold emit at 1.
    rewrite publish_tune_control_eq. unfold usleep, ret.
    eexists _, _. split; [reflexivity|]. cbn [trace].
    eexists _, _. split; [rewrite <- !app_assoc; reflexivity|].
    unfold publication. cbn [tune_control_pub].
    destruct (tune_control_pub w); repeat split. }
  induction k as [|k IH]; intros ec Hec tunes tc w;
    rewrite play_loop_unfold_if; cbn [take_notes];
    destruct (get_next_tune tunes) as [[r n] tunes'];
    destruct (r >? 0).
  - destruct (Hround n tc w) as (tc' & w' & E & e1 & e2 & Htr & H1 & H2 & H0).
    rewrite E.
    assert (Ec : (ec + 1 >? MAX_NOTE_ITERATION) = true).
    { apply Z.gtb_lt. unfold rounds_left, MAX_NOTE_ITERATION in *. lia. }
    rewrite Ec. exists [CallGetNextTune; e1; e2]. split; [exact Htr|].
    split; [cbn; rewrite H1, H2; reflexivity|].
    unfold get_next_tune_calls in *. cbn. destruct e1, e2; try discriminate; reflexivity.
  - exists [CallGetNextTune]. repeat split.
  - destruct (Hround n tc w) as (tc' & w' & E & e1 & e2 & Htr & H1 & H2 & H0).
    rewrite E.
    assert (Ec : (ec + 1 >? MAX_NOTE_ITERATION) = false).
    { rewrite Z.gtb_ltb. apply Z.ltb_ge.
      unfold rounds_left, MAX_NOTE_ITERATION in *. lia. }
    rewrite Ec.
    assert (Hec' : rounds_left (ec + 1) = S k).
    { unfold rounds_left, MAX_NOTE_ITERATION in *. lia. }
    destruct (IH (ec + 1) Hec' tunes' tc' w') as (new' & Htr' & Hall & Hcalls).
    exists ([CallGetNextTune; e1; e2] ++ new'). split.
    { rewrite Htr', Htr, app_assoc. reflexivity. }
    split.
    { rewrite forallb_app, Hall. cbn. rewrite H1, H2. reflexivity. }
    unfold get_next_tune_calls in *. rewrite filter_app, length_app, Hcalls.
    unfold last_call. simpl List.length.
    change (S (List.length (take_notes (S k) tunes')) <? S (S k))%nat
      with (List.length (take_notes (S k) tunes') <? S k)%nat.
    destruct e1, e2; try discriminate; cbn; reflexivity.
  - exists [CallGetNextTune]. repeat split.
Qed.

End Loops.

(** ** Playing a melody *)

Section MelodyRuns.

Context {Tunes : Type} {tunes_api : TunesAPI Tunes}.
Variable strtol : string -> Z.

(** [play] with a melody string, effect by effect: the two log lines and
    the call of [set_string] around what the loop does. *)
Lemma run_command_play_string_exact (tunes : Tunes) (l : locals)
  (rest : list string) (w : World) :
  string_input l = true ->
  let loaded := set_string (melody_of l) (strength (tune_control l)) tunes in
  let notes := take_notes (S (Z.to_nat MAX_NOTE_ITERATION)) loaded in
  exists (w' : World) (loop : list effect),
    run_command tunes l ("play" :: rest) w = (0, w') /\
    trace w' = trace w ++
               [Info "Start playback..." [];
                CallSetString (melody_of l) (strength (tune_control l))]
               ++ loop ++ [Info "Playback finished." []] /\
    forallb loop_effect loop = true /\
    get_next_tune_calls loop =
      (List.length notes
       + List.length (last_call (S (Z.to_nat MAX_NOTE_ITERATION))
                                (List.length notes)))%nat /\
    map unstamped_action (sink_view loop) =
      flat_map (fun n => round_view wrapped_pause
                           (note_message (tune_override (tune_control l)) n))
               notes /\
    handle_rule (tune_control_pub w) loop (tune_control_pub w').
Proof.
  intros Hs loaded notes. unfold run_command.
  cbn [String.eqb Ascii.eqb Bool.eqb andb].
  rewrite Hs. unfold bind, PX4_INFO, emit, ret. cbn [hrt_now tune_control_pub trace].
  fold loaded.
  match goal with
  | |- context [play_loop 0 loaded ?tc ?w0] =>
      destruct (play_loop_trace (Z.to_nat MAX_NOTE_ITERATION) 0 eq_refl loaded tc w0)
        as (new1 & Htr1 & Hview);
      destruct (play_loop_calls (Z.to_nat MAX_NOTE_ITERATION) 0 eq_refl loaded tc w0)
        as (new2 & Htr2 & Hall & Hcalls);
      destruct (grows_play_loop (Z.to_nat MAX_NOTE_ITERATION) 0 eq_refl loaded tc w0)
        as (new3 & Htr3 & Hrule);
      destruct (play_loop 0 loaded tc w0) as [now pub tr] eqn:Eloop
  end.
  cbn [trace hrt_now tune_control_pub] in *.
  assert (E12 : new1 = new2) by (rewrite Htr2 in Htr1; exact (app_inv_head _ _ _ (eq_sym Htr1))).
  assert (E32 : new3 = new2) by (rewrite Htr2 in Htr3; exact (app_inv_head _ _ _ (eq_sym Htr3))).
  subst new1 new3.
  exists (mk_World now pub (tr ++ [Info "Playback finished." []])), new2.
  split; [reflexivity|]. cbn [trace tune_control_pub].
  split; [rewrite Htr2, <- !app_assoc; reflexivity|].
  split; [exact Hall|]. split; [exact Hcalls|]. split; [exact Hview | exact Hrule].
Qed.

Lemma loop_effect_views (loop : list effect) :
  forallb loop_effect loop = true ->
  set_string_calls loop = [] /\ log_view loop = [].
Proof.
  induction loop as [|e loop IH]; [split; reflexivity|].
  cbn [forallb]. intros H. apply andb_true_iff in H. destruct H as [He Hl].
  destruct (IH Hl) as [H1 H2].
  unfold set_string_calls, log_view in *.
  destruct e; cbn in He; try discriminate He; cbn; split; assumption.
Qed.

(** The facts about an accepted command line with a melody. *)
Lemma melody_locals (cl : command_line) (l : locals) (w w1 : World) (s : string) :
  getopt_loop strtol Tunes_default (options cl) locals_init w = (Continue l, w1) ->
  last_option "m" (options cl) = Some s ->
  string_input l = true /\ melody_of l = s /\
  strength (tune_control l)
    = option_value "s" (strength_of strtol) STRENGTH_NORMAL (options cl) /\
  tune_override (tune_control l) = false.
Proof.
  intros El Hm.
  destruct (getopt_loop_fields strtol _ _ _ _ El)
    as (_ & _ & _ & Hs & Hsi & Hts & _ & Hov & _).
  unfold option_value in Hsi, Hts. rewrite Hm in Hsi, Hts.
  unfold melody_of. rewrite Hts. repeat split; assumption.
Qed.

(** X7.  [play] with a melody on an accepted command line calls
    [set_string] exactly once.  The string it hands over is the argument
    of the last [-m], and begins with 'M'; the strength it hands over is
    the one selected by the last [-s] (40 when there is none), and lies
    strictly between 0 and 100. *)
Theorem X7_set_string_gets_checked_arguments (cl : command_line)
  (rest : list string) (w : World) (s : string) :
  accepted strtol (options cl) ->
  last_option "m" (options cl) = Some s ->
  operands cl = "play" :: rest ->
  exists (w' : World) (new : list effect) (v : Z),
    tune_control_main strtol cl w = (0, w') /\
    trace w' = trace w ++ new /\
    set_string_calls new = [(s, v)] /\
    first_char_is_M s = true /\
    v = option_value "s" (strength_of strtol) 40 (options cl) /\
    0 < v < 100.
Proof.
  intros Hacc Hm Hops.
  destruct (Hacc locals_init w) as [l El].
  destruct (melody_locals cl l w w s El Hm) as (Hs & Hmel & Hst & Hov).
  rewrite (tune_control_main_accepted strtol cl l w w El), Hops.
  destruct (run_command_play_string_exact Tunes_default l rest w Hs)
    as (w' & loop & Hrun & Htr & Hall & _).
  destruct (loop_effect_views loop Hall) as [Hss _].
  eexists w', _, (strength (tune_control l)).
  split; [exact Hrun|]. split; [exact Htr|].
  split.
  { unfold set_string_calls in *. rewrite !flat_map_app, Hss, Hmel. reflexivity. }
  split.
  { apply (accepted_m strtol).
    exact (proj1 (accepted_forall strtol _) Hacc _ _ (last_option_in _ _ _ Hm)). }
  split; [exact Hst|].
  rewrite Hst. unfold option_value.
  destruct (last_option "s" (options cl));
    [apply strength_of_range | unfold STRENGTH_NORMAL; lia].
Qed.

(** X8.  Whatever the [Tunes] object does, also when [get_next_tune]
    never stops returning a positive value, [play] with a melody returns
    0 after at most [MAX_NOTE_ITERATION + 1] calls of [get_next_tune], the
    same number of publications at most, and as many sleeps as
    publications. *)
Theorem X8_play_is_bounded_for_every_melody (cl : command_line)
  (rest : list string) (w : World) (s : string) :
  accepted strtol (options cl) ->
  last_option "m" (options cl) = Some s ->
  operands cl = "play" :: rest ->
  exists (w' : World) (new : list effect),
    tune_control_main strtol cl w = (0, w') /\
    trace w' = trace w ++ new /\
    (get_next_tune_calls new <= Z.to_nat MAX_NOTE_ITERATION + 1)%nat /\
    (List.length (published new) <= Z.to_nat MAX_NOTE_ITERATION + 1)%nat /\
    List.length (sink_view new) = (2 * List.length (published new))%nat.
Proof.
  intros Hacc Hm Hops.
  destruct (Hacc locals_init w) as [l El].
  destruct (melody_locals cl l w w s El Hm) as (Hs & Hmel & Hst & Hov).
  rewrite (tune_control_main_accepted strtol cl l w w El), Hops.
  destruct (run_command_play_string_exact Tunes_default l rest w Hs)
    as (w' & loop & Hrun & Htr & Hall & Hcalls & Hview & _).
  set (notes := take_notes (S (Z.to_nat MAX_NOTE_ITERATION))
                  (set_string (melody_of l) (strength (tune_control l)) Tunes_default))
    in *.
  pose proof (take_notes_length (S (Z.to_nat MAX_NOTE_ITERATION))
                (set_string (melody_of l) (strength (tune_control l)) Tunes_default))
    as Hlen. fold notes in Hlen.
  assert (Epub : List.length (published loop) = List.length notes).
  { rewrite <- (length_map unstamped). unfold published.
    rewrite <- messages_unstamped, Hview, messages_rounds. apply length_map. }
  assert (Esink : List.length (sink_view loop) = (2 * List.length notes)%nat).
  { rewrite <- (length_map unstamped_action), Hview.
    clear. induction notes as [|n notes IH]; [reflexivity|].
    cbn [flat_map round_view app List.length]. rewrite IH. lia. }
  eexists w', _. split; [exact Hrun|]. split; [exact Htr|].
  assert (Hp : published ([Info "Start playback..." [];
                           CallSetString (melody_of l) (strength (tune_control l))]
                          ++ loop ++ [Info "Playback finished." []])
               = published loop).
  { rewrite !published_app. cbn. apply app_nil_r. }
  assert (Hv : sink_view ([Info "Start playback..." [];
                           CallSetString (melody_of l) (strength (tune_control l))]
                          ++ loop ++ [Info "Playback finished." []])
               = sink_view loop).
  { rewrite !sink_view_app. cbn. apply app_nil_r. }
  rewrite Hp, Hv, Epub, Esink.
  split; [| split; [lia | reflexivity]].
  unfold get_next_tune_calls in *. rewrite !filter_app, !length_app. cbn [filter List.length].
  rewrite Hcalls. unfold last_call.
  destruct (List.length notes <? S (Z.to_nat MAX_NOTE_ITERATION))%nat eqn:Hlt;
    cbn [List.length]; [apply Nat.ltb_lt in Hlt|]; lia.
Qed.

(** X9.  A melody of at most [MAX_NOTE_ITERATION] notes is played to its
    end: every note is published, in order, and [get_next_tune] is called
    once more than there are notes, the last call being the one that
    reports the end. *)
Theorem X9_short_melody_is_played_completely (cl : command_line)
  (rest : list string) (w : World) (s : string) (notes : list next_tune) :
  accepted strtol (options cl) ->
  last_option "m" (options cl) = Some s ->
  operands cl = "play" :: rest ->
  yields (set_string s (option_value "s" (strength_of strtol) 40 (options cl))
                     Tunes_default) notes ->
  (List.length notes <= Z.to_nat MAX_NOTE_ITERATION)%nat ->
  exists (w' : World) (new : list effect),
    tune_control_main strtol cl w = (0, w') /\
    trace w' = trace w ++ new /\
    map unstamped (published new) = map (note_message false) notes /\
    get_next_tune_calls new = S (List.length notes).
Proof.
  intros Hacc Hm Hops Hy Hlen.
  destruct (Hacc locals_init w) as [l El].
  destruct (melody_locals cl l w w s El Hm) as (Hs & Hmel & Hst & Hov).
  rewrite (tune_control_main_accepted strtol cl l w w El), Hops.
  destruct (run_command_play_string_exact Tunes_default l rest w Hs)
    as (w' & loop & Hrun & Htr & Hall & Hcalls & Hview & _).
  rewrite Hmel, Hst, Hov in *. change STRENGTH_NORMAL with 40 in *.
  rewrite (take_notes_yields _ _ Hy) in *.
  rewrite firstn_all2 in * by lia.
  eexists w', _. split; [exact Hrun|]. split; [exact Htr|].
  split.
  - rewrite !published_app. cbn [published sink_view flat_map sink_actions messages app].
    rewrite app_nil_r. unfold published.
    rewrite <- messages_unstamped, Hview. apply messages_rounds.
  - unfold get_next_tune_calls in *. rewrite !filter_app, !length_app.
    cbn [filter List.length]. rewrite Hcalls. unfold last_call.
    assert (Hlt : (List.length notes <? S (Z.to_nat MAX_NOTE_ITERATION))%nat = true)
      by (apply Nat.ltb_lt; lia).
    rewrite Hlt. cbn [List.length]. lia.
Qed.

End MelodyRuns.

(** ** Whole runs and the topic handle *)

Section WholeRuns.

Context {Tunes : Type} {tunes_api : TunesAPI Tunes}.
Variable strtol : string -> Z.

Lemma lawful_ret {A : Type} (a : A) : lawful (ret a).
Proof. intros w. apply grows_refl. Qed.

Lemma lawful_bind {A B : Type} (m : M A) (k : A -> M B) :
  lawful m -> (forall a, lawful (k a)) -> lawful (bind m k).
Proof.
  intros Hm Hk w. unfold bind. specialize (Hm w).
  destruct (m w) as [a w1]. cbn [snd] in Hm.
  exact (grows_trans _ _ _ Hm (Hk a w1)).
Qed.

Lemma lawful_emit (e : effect) : sink_actions e = [] -> lawful (emit e).
Proof. intros H w. apply grows_emit. exact H. Qed.

Lemma lawful_usleep (us : Z) : lawful (usleep us).
Proof. intros w. apply grows_usleep. Qed.

Lemma lawful_publish (m : tune_control_s) : lawful (publish_tune_control m).
Proof. intros w. apply grows_publish. Qed.

Lemma lawful_play_loop (tunes : Tunes) (tc : tune_control_s) :
  lawful (fun w => (tt, play_loop 0 tunes tc w)).
Proof.
  intros w. cbn [snd].
  exact (grows_play_loop (Z.to_nat MAX_NOTE_ITERATION) 0 eq_refl tunes tc w).
Qed.

(** Effects that are no publications keep the handle. *)
Lemma handle_rule_quiet_list (pub : option orb_advert_t) (tr : list effect) :
  (forall e, In e tr -> sink_actions e = [] \/ exists us, e = Usleep us) ->
  handle_rule pub tr pub.
Proof.
  induction tr as [|e tr IH]; intros H; [apply handle_rule_refl|].
  apply (handle_rule_app pub pub pub [e] tr).
  - apply handle_rule_quiet. apply H. left. reflexivity.
  - apply IH. intros e' Hin. apply H. right. exact Hin.
Qed.

Lemma libtest_effects_quiet (notes : list next_tune) (tail : list effect) :
  (forall e, In e tail -> sink_actions e = [] \/ exists us, e = Usleep us) ->
  forall e, In e (flat_map libtest_round notes ++ tail) ->
            sink_actions e = [] \/ exists us, e = Usleep us.
Proof.
  intros Ht e Hin. apply in_app_or in Hin. destruct Hin as [Hin|Hin]; [| exact (Ht e Hin)].
  apply in_flat_map in Hin. destruct Hin as (n & _ & Hin).
  destruct Hin as [<-|[<-|[<-|[]]]]; [left; reflexivity | left; reflexivity |].
  right. exists 500000. reflexivity.
Qed.

Lemma last_call_quiet (rounds notes : nat) :
  forall e, In e (last_call rounds notes) ->
            sink_actions e = [] \/ exists us, e = Usleep us.
Proof.
  unfold last_call. destruct (notes <? rounds)%nat; intros e Hin.
  - destruct Hin as [<-|[]]. left. reflexivity.
  - destruct Hin.
Qed.

Lemma lawful_libtest_loop (tunes : Tunes) :
  lawful (fun w => (tt, libtest_loop 0 tunes w)).
Proof.
  intros w. cbn [snd].
  rewrite (libtest_loop_exact (Z.to_nat MAX_NOTE_ITERATION) 0 eq_refl tunes w).
  eexists. split; [reflexivity|]. cbn [tune_control_pub].
  apply handle_rule_quiet_list. apply libtest_effects_quiet. apply last_call_quiet.
Qed.

Lemma lawful_run_command (tunes : Tunes) (l : locals) (ops : list string) :
  lawful (run_command tunes l ops).
Proof.
  unfold run_command. destruct ops as [|cmd rest].
  - apply lawful_bind; [apply lawful_emit; reflexivity | intros; apply lawful_ret].
  - destruct (String.eqb cmd "play").
    { destruct (string_input l).
      - repeat first
          [ apply lawful_ret | apply lawful_play_loop
          | apply lawful_emit; reflexivity
          | apply lawful_bind; [| intros ?] ].
      - repeat first
          [ apply lawful_ret | apply lawful_publish
          | apply lawful_emit; reflexivity
          | apply lawful_bind; [| intros ?] ]. }
    destruct (String.eqb cmd "libtest").
    { apply lawful_bind; [apply lawful_emit; reflexivity | intros ?].
      destruct (set_control (tune_control l) tunes) as [r t].
      apply lawful_bind; [| intros ?].
      - destruct (r =? - EINVAL); [apply lawful_emit; reflexivity | apply lawful_ret].
      - apply lawful_bind; [apply lawful_libtest_loop | intros; apply lawful_ret]. }
    destruct (String.eqb cmd "stop").
    { repeat first
        [ apply lawful_ret | apply lawful_publish | apply lawful_usleep
        | apply lawful_emit; reflexivity
        | apply lawful_bind; [| intros ?] ]. }
    apply lawful_bind; [apply lawful_emit; reflexivity | intros; apply lawful_ret].
Qed.

Lemma lawful_tune_control_main (cl : command_line) :
  lawful (tune_control_main strtol cl).
Proof.
  intros w. unfold tune_control_main, bind.
  destruct (getopt_loop_cases strtol Tunes_default (options cl) locals_init w)
    as [[l El]|[c [El _]]]; rewrite El.
  - apply lawful_run_command.
  - cbn [snd ret]. unfold ret. cbn [snd]. apply grows_emit. reflexivity.
Qed.

Lemma grows_run_all (cls : list command_line) :
  forall w, grows w (run_all strtol cls w).
Proof.
  induction cls as [|cl cls IH]; intros w; [apply grows_refl|].
  cbn [run_all].
  exact (grows_trans _ _ _ (lawful_tune_control_main cl w) (IH _)).
Qed.

(** What a grown world says about advertising. *)
Lemma grows_advertises (w w' : World) :
  grows w w' ->
  exists new,
    trace w' = trace w ++ new /\
    publications new = publications_of (tune_control_pub w) (published new) /\
    tune_control_pub w' = handle_after (tune_control_pub w) (published new) /\
    (advertises new <= 1)%nat /\
    (tune_control_pub w <> None -> advertises new = 0%nat) /\
    (published new = [] -> advertises new = 0%nat) /\
    (forall q, In q (queue_sizes new) -> q = 3).
Proof.
  intros (new & Htr & Hpubs & Hafter). exists new.
  split; [exact Htr|]. split; [exact Hpubs|]. split; [exact Hafter|].
  destruct (advertises_publications new) as [Ha Hq].
  destruct (publications_of_advertises (tune_control_pub w) (published new))
    as [Ha' Hq'].
  rewrite <- Hpubs, Ha in Ha'. rewrite <- Hpubs, Hq in Hq'.
  rewrite Ha', Hq'.
  destruct (tune_control_pub w) as [h|]; destruct (published new) as [|m ms];
    repeat split; try lia; try congruence;
    try (intros q []; [symmetry; assumption | contradiction]);
    try (intros q []).
Qed.

(** X10.  [libtest] on an accepted command line never publishes: it hands
    the message built by the options to [set_control], warns when the
    result is [-EINVAL], and then, for each of at most
    [MAX_NOTE_ITERATION + 1] notes that [get_next_tune] hands out, logs
    the note and sleeps half a second.  The topic handle is left as it
    was and the command returns 0. *)
Theorem X10_libtest_logs_and_never_publishes (cl : command_line) (l : locals)
  (rest : list string) (w w1 : World) :
  getopt_loop strtol Tunes_default (options cl) locals_init w = (Continue l, w1) ->
  operands cl = "libtest" :: rest ->
  let r := fst (set_control (tune_control l) Tunes_default) in
  let notes := take_notes (Z.to_nat MAX_NOTE_ITERATION + 1)
                 (snd (set_control (tune_control l) Tunes_default)) in
  exists (w' : World) (new : list effect),
    tune_control_main strtol cl w = (0, w') /\
    trace w' = trace w ++ new /\
    new = [CallSetControl (tune_control l)]
          ++ (if r =? - EINVAL then [Warn "Tune ID not recognized."] else [])
          ++ flat_map libtest_round notes
          ++ last_call (Z.to_nat MAX_NOTE_ITERATION + 1) (List.length notes) /\
    published new = [] /\
    tune_control_pub w' = tune_control_pub w /\
    hrt_now w' = hrt_now w + 500000 * Z.of_nat (List.length notes) /\
    (List.length notes <= Z.to_nat MAX_NOTE_ITERATION + 1)%nat.
Proof.
  intros Hopt Hops r notes.
  rewrite (tune_control_main_accepted strtol cl l w w1 Hopt), Hops.
  unfold run_command. cbn [String.eqb Ascii.eqb Bool.eqb andb].
  subst r notes.
  destruct (set_control (tune_control l) Tunes_default) as [r t]. cbn [fst snd].
  replace (Z.to_nat MAX_NOTE_ITERATION + 1)%nat
    with (S (Z.to_nat MAX_NOTE_ITERATION)) by reflexivity.
  set (notes := take_notes (S (Z.to_nat MAX_NOTE_ITERATION)) t).
  assert (Hquiet : forall tail,
             (forall e, In e tail -> sink_actions e = [] \/ exists us, e = Usleep us) ->
             published (tail ++ flat_map libtest_round notes
                        ++ last_call (S (Z.to_nat MAX_NOTE_ITERATION))
                                     (List.length notes)) = []).
  { intros tail Htail.
    assert (Hq : handle_rule None
                   (tail ++ flat_map libtest_round notes
                    ++ last_call (S (Z.to_nat MAX_NOTE_ITERATION)) (List.length notes))
                   None).
    { apply handle_rule_quiet_list. intros e Hin.
      apply in_app_or in Hin. destruct Hin as [Hin|Hin]; [exact (Htail e Hin)|].
      exact (libtest_effects_quiet _ _ (last_call_quiet _ _) e Hin). }
    destruct Hq as [_ Hq]. unfold handle_after in Hq.
    destruct (published _) as [|m ms]; [reflexivity | discriminate Hq]. }
  destruct (r =? - EINVAL); unfold bind, PX4_WARN, emit, ret; cbn beta zeta iota;
    rewrite (libtest_loop_exact (Z.to_nat MAX_NOTE_ITERATION) 0 eq_refl);
    fold notes; cbn [hrt_now tune_control_pub trace];
    (eexists _, _; split; [reflexivity|]; cbn [trace hrt_now tune_control_pub];
     split; [rewrite <- !app_assoc; reflexivity|];
     split; [reflexivity|];
     split; [| repeat split; apply take_notes_length]).
  - apply (Hquiet [CallSetControl (tune_control l); Warn "Tune ID not recognized."]).
    intros e [<-|[<-|[]]]; left; reflexivity.
  - apply (Hquiet [CallSetControl (tune_control l)]).
    intros e [<-|[]]; left; reflexivity.
Qed.

(** X11.  In every run of the command the messages reach the topic by the
    same rule: when the handle is null at the first publication, that
    publication advertises the topic with a queue of 3 and sets the
    handle; every other publication uses the handle.  So a run advertises
    at most once, never when it starts with a handle or publishes
    nothing, and the handle is never taken back. *)
Theorem X11_topic_is_advertised_at_most_once (cl : command_line) (w : World) :
  exists new,
    trace (snd (tune_control_main strtol cl w)) = trace w ++ new /\
    publications new = publications_of (tune_control_pub w) (published new) /\
    tune_control_pub (snd (tune_control_main strtol cl w))
      = handle_after (tune_control_pub w) (published new) /\
    (advertises new <= 1)%nat /\
    (tune_control_pub w <> None -> advertises new = 0%nat) /\
    (published new = [] -> advertises new = 0%nat) /\
    (forall q, In q (queue_sizes new) -> q = 3).
Proof.
  apply grows_advertises. apply lawful_tune_control_main.
Qed.

(** X12.  The same holds for any number of runs, one after the other in
    the same process: together they advertise the topic at most once,
    with a queue of 3, at the first publication that finds no handle. *)
Theorem X12_runs_in_sequence_advertise_once (cls : list command_line) (w : World) :
  exists new,
    trace (run_all strtol cls w) = trace w ++ new /\
    publications new = publications_of (tune_control_pub w) (published new) /\
    tune_control_pub (run_all strtol cls w)
      = handle_after (tune_control_pub w) (published new) /\
    (advertises new <= 1)%nat /\
    (tune_control_pub w <> None -> advertises new = 0%nat) /\
    (published new = [] -> advertises new = 0%nat) /\
    (forall q, In q (queue_sizes new) -> q = 3).
Proof.
  apply grows_advertises. apply grows_run_all.
Qed.

End WholeRuns.

(** * The further properties at concrete command lines *)

(** X2 at [play -d 5 -x 1 -f 0], run with the scripted object: [-d 5] is
    accepted, [-x] is not, and the command returns -1 without looking at
    [-f 0]. *)
Lemma X2_witness_unknown_option_first :
  let cl := mk_command_line
              [("d"%char, "5"); ("x"%char, "1"); ("f"%char, "0")] ["play"] in
  options cl = [("d"%char, "5")] ++ ("x"%char, "1") :: [("f"%char, "0")] /\
  @accepted _ demo_tunes strtol_decimal [("d"%char, "5")] /\
  ~ @accepted _ demo_tunes strtol_decimal [("x"%char, "1")] /\
  demo_main cl boot_world = (-1, after_usage boot_world).
Proof.
  intros cl.
  assert (Hopts : options cl
                  = [("d"%char, "5")] ++ ("x"%char, "1") :: [("f"%char, "0")])
    by reflexivity.
  assert (Hpre : @accepted _ demo_tunes strtol_decimal [("d"%char, "5")]).
  { eapply (@accepted_of_run _ demo_tunes strtol_decimal _ locals_init _ boot_world _).
    vm_compute. reflexivity. }
  assert (Hrej : ~ @accepted _ demo_tunes strtol_decimal [("x"%char, "1")]).
  { intros H. destruct (H locals_init boot_world) as [l E].
    vm_compute in E. discriminate E. }
  split; [exact Hopts|]. split; [exact Hpre|]. split; [exact Hrej|].
  exact (@X2_first_rejected_option_decides _ demo_tunes strtol_decimal cl
           [("d"%char, "5")] [("f"%char, "0")] "x"%char "1" boot_world
           Hopts Hpre Hrej).
Defined.

(** X5 at [play -f 440 -s 60 -f 880 -d 1000]: the second [-f] wins. *)
Lemma X5_witness_last_frequency_wins :
  let cl := mk_command_line
              [("f"%char, "440"); ("s"%char, "60"); ("f"%char, "880");
               ("d"%char, "1000")] ["play"] in
  @accepted _ demo_tunes strtol_decimal (options cl) /\
  absent "m" (options cl) /\
  operands cl = ["play"] /\
  exists w',
    demo_main cl boot_world = (0, w') /\
    published (trace w') = published (trace boot_world) ++
      [mk_tune_control
         (hrt_now boot_world)
         (option_value "t" (fun a => uint8_t (strtol_decimal a)) 1 (options cl))
         false
         (option_value "f" (fun a => uint16_t (strtol_decimal a)) 0 (options cl))
         (option_value "d" (fun a => strtol_decimal a mod 2 ^ 32) 0 (options cl))
         0
         (option_value "s" (strength_of strtol_decimal) 40 (options cl))].
Proof.
  intros cl.
  assert (Hacc : @accepted _ demo_tunes strtol_decimal (options cl)).
  { eapply (@accepted_of_run _ demo_tunes strtol_decimal _ locals_init _ boot_world _).
    vm_compute. reflexivity. }
  assert (Hm : absent "m" (options cl)).
  { intros arg H. repeat (destruct H as [H|H]; [discriminate H|]). destruct H. }
  assert (Hops : operands cl = ["play"]) by reflexivity.
  split; [exact Hacc|]. split; [exact Hm|]. split; [exact Hops|].
  exact (@X5_play_message_is_set_by_last_options _ demo_tunes strtol_decimal
           cl [] boot_world Hacc Hm Hops).
Defined.

(** X6 at [stop -f 440]. *)
Lemma X6_witness_stop_with_frequency :
  let cl := mk_command_line [("f"%char, "440")] ["stop"] in
  @accepted _ demo_tunes strtol_decimal (options cl) /\
  operands cl = ["stop"] /\
  exists w' m,
    demo_main cl boot_world = (0, w') /\
    published (trace w') = published (trace boot_world) ++ [m] /\
    0 <= frequency m < 22000 /\
    0 < strength m < 100 /\
    0 <= tune_id m < 256 /\
    0 <= duration m < 2 ^ 32 /\
    silence m = 0.
Proof.
  intros cl.
  assert (Hacc : @accepted _ demo_tunes strtol_decimal (options cl)).
  { eapply (@accepted_of_run _ demo_tunes strtol_decimal _ locals_init _ boot_world _).
    vm_compute. reflexivity. }
  assert (Hops : operands cl = ["stop"]) by reflexivity.
  split; [exact Hacc|]. split; [exact Hops|].
  exact (@X6_published_fields_are_in_range _ demo_tunes strtol_decimal
           cl "stop" [] boot_world Hacc Hops (or_introl eq_refl)).
Defined.

(** X7 at [play -m Mabc -s 60]. *)
Lemma X7_witness_melody_with_strength :
  let cl := mk_command_line [("m"%char, "Mabc"); ("s"%char, "60")] ["play"] in
  @accepted _ demo_tunes strtol_decimal (options cl) /\
  last_option "m" (options cl) = Some "Mabc" /\
  operands cl = ["play"] /\
  exists (w' : World) (new : list effect) (v : Z),
    demo_main cl boot_world = (0, w') /\
    trace w' = trace boot_world ++ new /\
    set_string_calls new = [("Mabc", v)] /\
    first_char_is_M "Mabc" = true /\
    v = option_value "s" (strength_of strtol_decimal) 40 (options cl) /\
    0 < v < 100.
Proof.
  intros cl.
  assert (Hacc : @accepted _ demo_tunes strtol_decimal (options cl)).
  { eapply (@accepted_of_run _ demo_tunes strtol_decimal _ locals_init _ boot_world _).
    vm_compute. reflexivity. }
  assert (Hm : last_option "m" (options cl) = Some "Mabc") by reflexivity.
  assert (Hops : operands cl = ["play"]) by reflexivity.
  split; [exact Hacc|]. split; [exact Hm|]. split; [exact Hops|].
  exact (@X7_set_string_gets_checked_arguments _ demo_tunes strtol_decimal
           cl [] boot_world "Mabc" Hacc Hm Hops).
Defined.

(** X8 at [play -m M] with a [Tunes] object whose melody never ends. *)
Lemma X8_witness_endless_melody :
  let cl := mk_command_line [("m"%char, "M")] ["play"] in
  @accepted _ endless_tunes strtol_decimal (options cl) /\
  last_option "m" (options cl) = Some "M" /\
  operands cl = ["play"] /\
  exists (w' : World) (new : list effect),
    @tune_control_main _ endless_tunes strtol_decimal cl boot_world = (0, w') /\
    trace w' = trace boot_world ++ new /\
    (get_next_tune_calls new <= Z.to_nat MAX_NOTE_ITERATION + 1)%nat /\
    (List.length (published new) <= Z.to_nat MAX_NOTE_ITERATION + 1)%nat /\
    List.length (sink_view new) = (2 * List.length (published new))%nat.
Proof.
  intros cl.
  assert (Hacc : @accepted _ endless_tunes strtol_decimal (options cl)).
  { eapply (@accepted_of_run _ endless_tunes strtol_decimal _ locals_init _ boot_world _).
    vm_compute. reflexivity. }
  assert (Hm : last_option "m" (options cl) = Some "M") by reflexivity.
  assert (Hops : operands cl = ["play"]) by reflexivity.
  split; [exact Hacc|]. split; [exact Hm|]. split; [exact Hops|].
  exact (@X8_play_is_bounded_for_every_melody _ endless_tunes strtol_decimal
           cl [] boot_world "M" Hacc Hm Hops).
Defined.

(** X9 at [play -m Mabc], a melody of three notes. *)
Lemma X9_witness_three_notes_played :
  let cl := mk_command_line [("m"%char, "Mabc")] ["play"] in
  let notes := note_per_char "Mabc" 40 in
  @accepted _ demo_tunes strtol_decimal (options cl) /\
  last_option "m" (options cl) = Some "Mabc" /\
  operands cl = ["play"] /\
  (List.length notes <= Z.to_nat MAX_NOTE_ITERATION)%nat /\
  exists (w' : World) (new : list effect),
    demo_main cl boot_world = (0, w') /\
    trace w' = trace boot_world ++ new /\
    map unstamped (published new) = map (note_message false) notes /\
    get_next_tune_calls new = S (List.length notes).
Proof.
  intros cl notes.
  assert (Hacc : @accepted _ demo_tunes strtol_decimal (options cl)).
  { eapply (@accepted_of_run _ demo_tunes strtol_decimal _ locals_init _ boot_world _).
    vm_compute. reflexivity. }
  assert (Hm : last_option "m" (options cl) = Some "Mabc") by reflexivity.
  assert (Hops : operands cl = ["play"]) by reflexivity.
  assert (Hlen : (List.length notes <= Z.to_nat MAX_NOTE_ITERATION)%nat)
    by (vm_compute; lia).
  split; [exact Hacc|]. split; [exact Hm|]. split; [exact Hops|]. split; [exact Hlen|].
  exact (@X9_short_melody_is_played_completely _ demo_tunes strtol_decimal
           cl [] boot_world "Mabc" notes Hacc Hm Hops
           (scripted_yields 21 100000 note_per_char notes) Hlen).
Defined.

(** X10 at [libtest -t 3] with the object whose melody never ends and whose
    [set_control] returns [-EINVAL]. *)
Lemma X10_witness_libtest_endless :
  let cl := mk_command_line [("t"%char, "3")] ["libtest"] in
  let l := with_tune_control (set_tune_id 3) locals_init in
  let r := fst (@set_control _ endless_tunes (tune_control l)
                  (@Tunes_default _ endless_tunes)) in
  let notes := @take_notes _ endless_tunes (Z.to_nat MAX_NOTE_ITERATION + 1)
                 (snd (@set_control _ endless_tunes (tune_control l)
                         (@Tunes_default _ endless_tunes))) in
  @getopt_loop _ endless_tunes strtol_decimal (@Tunes_default _ endless_tunes)
     (options cl) locals_init boot_world = (Continue l, boot_world) /\
  operands cl = ["libtest"] /\
  exists (w' : World) (new : list effect),
    @tune_control_main _ endless_tunes strtol_decimal cl boot_world = (0, w') /\
    trace w' = trace boot_world ++ new /\
    new = [CallSetControl (tune_control l)]
          ++ (if r =? - EINVAL then [Warn "Tune ID not recognized."] else [])
          ++ flat_map libtest_round notes
          ++ last_call (Z.to_nat MAX_NOTE_ITERATION + 1) (List.length notes) /\
    published new = [] /\
    tune_control_pub w' = tune_control_pub boot_world /\
    hrt_now w' = hrt_now boot_world + 500000 * Z.of_nat (List.length notes) /\
    (List.length notes <= Z.to_nat MAX_NOTE_ITERATION + 1)%nat.
Proof.
  intros cl l r notes.
  assert (Hopt : @getopt_loop _ endless_tunes strtol_decimal
                   (@Tunes_default _ endless_tunes) (options cl) locals_init boot_world
                 = (Continue l, boot_world)) by reflexivity.
  assert (Hops : operands cl = ["libtest"]) by reflexivity.
  split; [exact Hopt|]. split; [exact Hops|].
  exact (@X10_libtest_logs_and_never_publishes _ endless_tunes strtol_decimal
           cl l [] boot_world boot_world Hopt Hops).
Defined.

(** X13 at [stop -m Mabc -f 440 -s 60]. *)
Lemma X13_witness_stop_with_melody :
  let cl := mk_command_line
              [("m"%char, "Mabc"); ("f"%char, "440"); ("s"%char, "60")] ["stop"] in
  @accepted _ demo_tunes strtol_decimal (options cl) /\
  operands cl = ["stop"] /\
  exists w',
    demo_main cl boot_world = (0, w') /\
    published (trace w') = published (trace boot_world) ++
      [mk_tune_control (hrt_now boot_world) 0 true 0 0 0
         (option_value "s" (strength_of strtol_decimal) 40 (options cl))].
Proof.
  intros cl.
  assert (Hacc : @accepted _ demo_tunes strtol_decimal (options cl)).
  { eapply (@accepted_of_run _ demo_tunes strtol_decimal _ locals_init _ boot_world _).
    vm_compute. reflexivity. }
  assert (Hops : operands cl = ["stop"]) by reflexivity.
  split; [exact Hacc|]. split; [exact Hops|].
  exact (@X13_stop_ignores_all_options_but_strength _ demo_tunes strtol_decimal
           cl [] boot_world Hacc Hops).
Defined.
